(** * BentoML multipart form parser: bentoml/_internal/utils/formparser.py

    A shallow embedding of [MultiPartParser.parse],
    [populate_multipart_requests] and [concat_to_multipart_responses],
    and the properties of the multipart specification checked against them;
    then the functions of bentoml/_internal/configuration/__init__.py
    (module [Configuration]) and the metaclass and wrappers of
    bentoml/_internal/artifacts/base.py (module [Artifacts]).

    Python [bytes] are lists of 8-bit characters, Python [str] is [string],
    exceptions are values of [exn] carried by the [result] monad, and the
    mutable objects the code shares (the [headers] list stored in an item,
    the [BytesIO] handed to the streaming response) are modelled with their
    identity and position. *)

From Stdlib Require Import String Ascii List Bool Arith NArith Lia.
From stdpp Require Import base option list strings gmap.
Import ListNotations.

Local Open Scope string_scope.
Local Open Scope list_scope.

(** ** Bytes *)

Definition bytes := list ascii.

(** A bytes literal [b"..."]. *)
Definition bytes_of (s : string) : bytes := list_ascii_of_string s.

(** [bytes.decode("latin-1")]: one character per byte. *)
Definition decode_latin1 (x : bytes) : string := string_of_list_ascii x.

(** [bytes.lower()] changes the ASCII letters [A]..[Z] only. *)
Definition ascii_lower (c : ascii) : ascii :=
  let n := N_of_ascii c in
  if ((65 <=? n) && (n <=? 90))%N then ascii_of_N (n + 32) else c.

Definition bytes_lower (x : bytes) : bytes := map ascii_lower x.

(** [data[start:end]] for non-negative offsets. *)
Definition slice (data : bytes) (start end_ : nat) : bytes :=
  take (end_ - start) (drop start data).

(** ** Exceptions *)

Inductive exn : Type :=
  | AssertionError
  | KeyError (key : bytes)
  | TypeError
  | MultipartParseError
  | BentoMLException (msg : string).

Global Instance exn_eq_dec : EqDecision exn.
Proof. solve_decision. Defined.

Inductive result (A : Type) : Type :=
  | Ok (a : A)
  | Raise (e : exn).
Arguments Ok {A} a.
Arguments Raise {A} e.

Global Instance result_ret : MRet result := @Ok.
Global Instance result_bind : MBind result :=
  λ A B f m, match m with Ok a => f a | Raise e => Raise e end.
Global Instance result_fmap : FMap result :=
  λ A B f m, match m with Ok a => Ok (f a) | Raise e => Raise e end.

(** ** Insertion-ordered dictionaries

    [dict(pairs)], [d.update(d')] and [list(d.items())] on a Python dict:
    a key keeps the position of its first insertion and the value of its
    last one. *)

Section odict.
Context {K V : Type} `{EqDecision K}.

Fixpoint dict_set (k : K) (v : V) (d : list (K * V)) : list (K * V) :=
  match d with
  | [] => [(k, v)]
  | (k', v') :: d' =>
      if decide (k = k') then (k, v) :: d' else (k', v') :: dict_set k v d'
  end.

Fixpoint dict_get (k : K) (d : list (K * V)) : option V :=
  match d with
  | [] => None
  | (k', v') :: d' => if decide (k = k') then Some v' else dict_get k d'
  end.

(** [d.update(pairs)] *)
Definition dict_update (d pairs : list (K * V)) : list (K * V) :=
  fold_left (λ acc kv, dict_set kv.1 kv.2 acc) pairs d.

(** [dict(pairs)] *)
Definition dict_of (pairs : list (K * V)) : list (K * V) :=
  dict_update [] pairs.

(** The value a list of pairs gives a key when read as a dict: the one of
    its last occurrence. *)
Fixpoint last_value (k : K) (pairs : list (K * V)) : option V :=
  match pairs with
  | [] => None
  | (k', v') :: rest =>
      match last_value k rest with
      | Some v => Some v
      | None => if decide (k = k') then Some v' else None
      end
  end.
End odict.

(** ** The messages of the parser callbacks (lines 33-65) *)

Inductive MultiPartMessage : Type :=
  | PART_BEGIN
  | PART_DATA
  | PART_END
  | HEADER_FIELD
  | HEADER_VALUE
  | HEADER_END
  | HEADERS_FINISHED
  | END.

Global Instance MultiPartMessage_eq_dec : EqDecision MultiPartMessage.
Proof. solve_decision. Defined.

Definition message : Type := MultiPartMessage * bytes.

(** A callback invocation made by the multipart decoder while it consumes a
    chunk: the eight entries of the [callbacks] dictionary (lines 78-87). *)
Inductive callback : Type :=
  | on_part_begin_call
  | on_part_data_call (data : bytes) (start end_ : nat)
  | on_part_end_call
  | on_header_field_call (data : bytes) (start end_ : nat)
  | on_header_value_call (data : bytes) (start end_ : nat)
  | on_header_end_call
  | on_headers_finished_call
  | on_end_call.

Definition on_part_begin : message := (PART_BEGIN, []).
Definition on_part_data (data : bytes) (start end_ : nat) : message :=
  (PART_DATA, slice data start end_).
Definition on_part_end : message := (PART_END, []).
Definition on_header_field (data : bytes) (start end_ : nat) : message :=
  (HEADER_FIELD, slice data start end_).
Definition on_header_value (data : bytes) (start end_ : nat) : message :=
  (HEADER_VALUE, slice data start end_).
Definition on_header_end : message := (HEADER_END, []).
Definition on_headers_finished : message := (HEADERS_FINISHED, []).
Definition on_end : message := (END, []).

(** What a callback invocation appends to [self.messages]. *)
Definition invoke (c : callback) : message :=
  match c with
  | on_part_begin_call => on_part_begin
  | on_part_data_call d s e => on_part_data d s e
  | on_part_end_call => on_part_end
  | on_header_field_call d s e => on_header_field d s e
  | on_header_value_call d s e => on_header_value d s e
  | on_header_end_call => on_header_end
  | on_headers_finished_call => on_headers_finished
  | on_end_call => on_end
  end.

(** ** Requests and forms *)

Definition header : Type := bytes * bytes.

(** An item of the form: [(field_name, headers, data)]. *)
Definition form_item : Type := string * list header * bytes.

(** The ASGI scope: its ["headers"] entry and the entries the parser never
    reads. *)
Record Scope : Type := {
  scope_headers : list header;
  scope_rest : list (string * bytes)
}.

Record Request : Type := {
  scope : Scope;
  (** the body chunks the receive channel delivers *)
  receive : list bytes;
  _form : option (list form_item);
  _body : option bytes
}.

(** [Request(scope)]: no receive channel, nothing cached. *)
Definition Request_new (sc : Scope) : Request :=
  {| scope := sc; receive := []; _form := None; _body := None |}.

(** [request.stream()]: the cached body, when there is one, followed by an
    empty chunk; the chunks of the receive channel otherwise. *)
Definition Request_stream (r : Request) : list bytes :=
  match _body r with
  | Some x => [x; []]
  | None => receive r
  end.

(** [request.headers[key]] on starlette's [Headers]: the key is lower-cased
    and the first raw header of that name is returned; [KeyError] when there
    is none. *)
Definition Headers_getitem (hs : list header) (key : string) : result bytes :=
  let k := bytes_lower (bytes_of key) in
  match dict_get k hs with
  | Some v => Ok v
  | None => Raise (KeyError (bytes_of key))
  end.

(** [request.headers.get(key)] *)
Definition Headers_get (hs : list header) (key : string) : option bytes :=
  match Headers_getitem hs key with
  | Ok v => Some v
  | Raise _ => None
  end.

(** ** The state of [MultiPartParser.parse]

    The local variables of [parse] (lines 91-99).  [headers] is bound to a
    list object and [items.append((field_name, headers, data))] stores that
    object, not a copy: the header lists live in [heap] and are named by
    their index, so that a later [headers.append] is seen through an item
    that already holds the list. *)

Record locals : Type := {
  header_field : bytes;
  header_value : bytes;
  content_disposition : option bytes;
  field_name : string;
  data : bytes;
  items : list (string * nat * bytes);
  headers : nat;
  heap : list (list header)
}.

Definition locals_init : locals :=
  {| header_field := []; header_value := []; content_disposition := None;
     field_name := ""; data := []; items := []; headers := 0; heap := [[]] |}.

Definition set_header_field (v : bytes) (st : locals) : locals :=
  {| header_field := v; header_value := header_value st;
     content_disposition := content_disposition st;
     field_name := field_name st; data := data st; items := items st;
     headers := headers st; heap := heap st |}.

Definition set_header_value (v : bytes) (st : locals) : locals :=
  {| header_field := header_field st; header_value := v;
     content_disposition := content_disposition st;
     field_name := field_name st; data := data st; items := items st;
     headers := headers st; heap := heap st |}.

Definition set_content_disposition (v : option bytes) (st : locals) : locals :=
  {| header_field := header_field st; header_value := header_value st;
     content_disposition := v;
     field_name := field_name st; data := data st; items := items st;
     headers := headers st; heap := heap st |}.

Definition set_field_name (v : string) (st : locals) : locals :=
  {| header_field := header_field st; header_value := header_value st;
     content_disposition := content_disposition st;
     field_name := v; data := data st; items := items st;
     headers := headers st; heap := heap st |}.

Definition set_data (v : bytes) (st : locals) : locals :=
  {| header_field := header_field st; header_value := header_value st;
     content_disposition := content_disposition st;
     field_name := field_name st; data := v; items := items st;
     headers := headers st; heap := heap st |}.

(** [headers = list()]: a fresh list object. *)
Definition new_headers (st : locals) : locals :=
  {| header_field := header_field st; header_value := header_value st;
     content_disposition := content_disposition st;
     field_name := field_name st; data := data st; items := items st;
     headers := length (heap st); heap := heap st ++ [[]] |}.

(** [headers.append(h)]: in place, on the object [headers] is bound to. *)
Definition headers_append (h : header) (st : locals) : locals :=
  {| header_field := header_field st; header_value := header_value st;
     content_disposition := content_disposition st;
     field_name := field_name st; data := data st; items := items st;
     headers := headers st;
     heap := alter (λ l, l ++ [h]) (headers st) (heap st) |}.

(** [items.append((field_name, headers, data))] *)
Definition items_append (st : locals) : locals :=
  {| header_field := header_field st; header_value := header_value st;
     content_disposition := content_disposition st;
     field_name := field_name st; data := data st;
     items := items st ++ [(field_name st, headers st, data st)];
     headers := headers st; heap := heap st |}.

(** The list a reference denotes. *)
Definition deref (hp : list (list header)) (r : nat) : list header :=
  default [] (hp !! r).

(** The value of [items] as its reader sees it. *)
Definition form_of (st : locals) : list form_item :=
  map (λ it : string * nat * bytes, (it.1.1, deref (heap st) it.1.2, it.2))
      (items st).

Record MultiPartParser : Type := {
  mp_headers : list header;
  mp_stream : list bytes;
  messages : list message
}.

(** [MultiPartParser.__init__] (lines 27-33) *)
Definition MultiPartParser_init (hs : list header) (chunks : list bytes)
  : MultiPartParser :=
  {| mp_headers := hs; mp_stream := chunks; messages := [] |}.

(** The python-multipart and starlette helpers the module imports (lines 6-7)
    are not part of this repository: the decoder [multipart.MultipartParser]
    with its [write] and [finalize] methods, [multipart.parse_options_header]
    and starlette's [_user_safe_decode].  They are the interface [parse] is
    written against; any call of the decoder may raise. *)
Class MultipartLib : Type := {
  Parser : Type;
  MultipartParser : option bytes → result Parser;
  write : Parser → bytes → result (Parser * list callback);
  finalize : Parser → result (list callback);
  parse_options_header : option bytes → bytes * gmap bytes bytes;
  _user_safe_decode : bytes → string → string
}.

Section MultiPart.
Context `{lib : MultipartLib}.

(** The body of the loop over [messages] (lines 107-130). *)
Definition handle (charset : string) (st : locals) (m : message)
  : result locals :=
  let '(message_type, message_bytes) := m in
  match message_type with
  | PART_BEGIN =>
      Ok (new_headers (set_data [] (set_content_disposition None st)))
  | HEADER_FIELD =>
      Ok (set_header_field (header_field st ++ message_bytes) st)
  | HEADER_VALUE =>
      Ok (set_header_value (header_value st ++ message_bytes) st)
  | HEADER_END =>
      let field := bytes_lower (header_field st) in
      let st1 :=
        if decide (field = bytes_of "content-disposition")
        then set_content_disposition (Some (header_value st)) st
        else headers_append (field, header_value st) st in
      Ok (set_header_value [] (set_header_field [] st1))
  | HEADERS_FINISHED =>
      let '(_, options) := parse_options_header (content_disposition st) in
      match options !! bytes_of "name" with
      | Some v => Ok (set_field_name (_user_safe_decode v charset) st)
      | None => Raise (KeyError (bytes_of "name"))
      end
  | PART_DATA =>
      Ok (set_data (data st ++ message_bytes) st)
  | PART_END =>
      Ok (items_append st)
  | END => Ok st
  end.

(** [for message_type, message_bytes in messages: ...] (line 106) *)
Fixpoint handle_all (charset : string) (st : locals) (ms : list message)
  : result locals :=
  match ms with
  | [] => Ok st
  | m :: ms' => st' ← handle charset st m; handle_all charset st' ms'
  end.

(** [async for chunk in self.stream: ...] (lines 102-130).  [queue] is
    [self.messages] when the chunk arrives; it is emptied after every
    chunk. *)
Fixpoint feed (charset : string) (parser : Parser) (queue : list message)
    (st : locals) (chunks : list bytes)
  : result (Parser * list message * locals) :=
  match chunks with
  | [] => Ok (parser, queue, st)
  | chunk :: rest =>
      '(parser', calls) ← write parser chunk;
      st' ← handle_all charset st (queue ++ map invoke calls);
      feed charset parser' [] st' rest
  end.

(** Lines 69-75: the boundary and the charset of the [Content-Type]
    header. *)
Definition content_type_params (content_type_header : bytes)
  : string * option bytes :=
  let '(_, params) := parse_options_header (Some content_type_header) in
  let charset := default (bytes_of "utf-8") (params !! bytes_of "charset") in
  let charset := decode_latin1 charset in
  let boundary := params !! bytes_of "boundary" in
  (charset, boundary).

(** [MultiPartParser.parse] (lines 67-133): the items returned and the
    parser object as the call leaves it. *)
Definition parse (self : MultiPartParser)
  : result (list form_item * MultiPartParser) :=
  value ← Headers_getitem (mp_headers self) "Content-Type";
  let '(charset, boundary) := content_type_params value in
  parser ← MultipartParser boundary;
  '(parser', queue, st) ← feed charset parser (messages self) locals_init
                               (mp_stream self);
  calls ← finalize parser';
  Ok (form_of st,
      {| mp_headers := mp_headers self; mp_stream := [];
         messages := queue ++ map invoke calls |}).

(** Lines 151-157: the request built for one item. *)
Definition sub_request (request : Request) (item : form_item) : Request :=
  let '(_, part_headers, part_data) := item in
  let ori_headers := dict_of (scope_headers (scope request)) in
  let ori_headers := dict_update ori_headers (dict_of part_headers) in
  let req := Request_new {| scope_headers := ori_headers;
                            scope_rest := scope_rest (scope request) |} in
  {| scope := scope req; receive := receive req; _form := _form req;
     _body := Some part_data |}.

(** Lines 149-159 *)
Definition split_requests (request : Request) (form : list form_item)
  : gmap string Request :=
  fold_left (λ reqs item, <[item.1.1 := sub_request request item]> reqs)
            form ∅.

(** [populate_multipart_requests] (lines 136-159): the mapping returned and
    the request with its [_form] set. *)
Definition populate_multipart_requests (request : Request)
  : result (gmap string Request * Request) :=
  let content_type_header :=
    Headers_get (scope_headers (scope request)) "Content-Type" in
  let '(content_type, _) := parse_options_header content_type_header in
  if decide (content_type = bytes_of "multipart/form-data") then
    let multipart_parser :=
      MultiPartParser_init (scope_headers (scope request))
                           (Request_stream request) in
    match parse multipart_parser with
    | Raise MultipartParseError =>
        Raise (BentoMLException "Invalid multipart requests")
    | Raise e => Raise e
    | Ok (form, _) =>
        Ok (split_requests request form,
            {| scope := scope request;
               receive := match _body request with
                          | Some _ => receive request
                          | None => []
                          end;
               _form := Some form; _body := _body request |})
    end
  else Raise AssertionError.

(** The decoder alone over the chunks of a stream: the callbacks of all the
    writes, in order. *)
Fixpoint write_all (parser : Parser) (chunks : list bytes)
  : result (Parser * list callback) :=
  match chunks with
  | [] => Ok (parser, [])
  | chunk :: rest =>
      '(parser', calls) ← write parser chunk;
      '(parser'', calls') ← write_all parser' rest;
      Ok (parser'', calls ++ calls')
  end.

End MultiPart.

(** ** Fragments

    A header name, a header value and the data of a part reach the callbacks
    in pieces whose cut points depend on the chunks.  [spell] cuts every
    piece into single bytes: two message lists with one spelling differ
    only in where the pieces are cut. *)

Definition is_fragment (t : MultiPartMessage) : bool :=
  match t with
  | HEADER_FIELD | HEADER_VALUE | PART_DATA => true
  | _ => false
  end.

Definition spell_message (m : message) : list message :=
  if is_fragment m.1 then map (λ c, (m.1, [c])) m.2 else [m].

Definition spell (ms : list message) : list message :=
  flat_map spell_message ms.



(** ** Responses (the merge path, lines 162-168) *)

(** [io.BytesIO]: the buffer and the stream position.  [write] stores at
    the position and moves it past what was written; iterating the object
    reads lines from the position on. *)
Record BytesIO : Type := {
  buf : bytes;
  pos : nat
}.

Definition BytesIO_new : BytesIO := {| buf := []; pos := 0 |}.

Definition BytesIO_write (f : BytesIO) (x : bytes) : BytesIO :=
  {| buf := take (pos f) (buf f)
            ++ replicate (pos f - length (buf f)) zero
            ++ x
            ++ drop (pos f + length x) (buf f);
     pos := pos f + length x |}.

Definition BytesIO_getvalue (f : BytesIO) : bytes := buf f.

Definition newline : ascii := ascii_of_nat 10.

(** The lines of a byte string, each with its terminator. *)
Fixpoint lines_of (x : bytes) : list bytes :=
  match x with
  | [] => []
  | c :: x' =>
      if decide (c = newline) then [c] :: lines_of x'
      else match lines_of x' with
           | [] => [[c]]
           | l :: ls => (c :: l) :: ls
           end
  end.

(** [iter(f)]: the lines [f.readline()] returns until it returns [b""]. *)
Definition BytesIO_iter (f : BytesIO) : list bytes :=
  lines_of (drop (pos f) (buf f)).

Record Response : Type := {
  body : bytes;
  raw_headers : list header
}.

(** starlette's [StreamingResponse(content, headers=...)]: the body sent is
    what iterating [content] yields. *)
Record StreamingResponse : Type := {
  body_iterator : BytesIO;
  init_headers : list (string * string)
}.

Definition streamed_body (r : StreamingResponse) : bytes :=
  concat (BytesIO_iter (body_iterator r)).

Definition hex_digit (n : N) : ascii :=
  nth (N.to_nat n) (bytes_of "0123456789abcdef") zero.

(** [binascii.hexlify] *)
Definition hexlify (x : bytes) : bytes :=
  flat_map (λ c, [hex_digit (N_of_ascii c / 16);
                  hex_digit (N_of_ascii c mod 16)]) x.

(** [concat_to_multipart_responses] (lines 162-168); [entropy] is the value
    [os.urandom(16)] returns in this call. *)
Definition concat_to_multipart_responses (entropy : bytes)
    (responses : list (string * Response)) : StreamingResponse :=
  let resp := fold_left BytesIO_write (map (λ req_, body req_.2) responses)
                        BytesIO_new in
  let boundary := string_of_list_ascii (hexlify entropy) in
  {| body_iterator := resp;
     init_headers :=
       [("content-type", "multipart/form-data; boundary=" +:+ boundary)] |}.

(** ** Reference instances of the imported helpers

    The theorems below hold for every decoder; the instances of this part
    are used to run [parse] and [populate_multipart_requests] on concrete
    requests. *)

Definition starts_with (p x : bytes) : bool :=
  bool_decide (take (length p) x = p).

(** The first offset of [x] at which [p] occurs. *)
Fixpoint find_sub (p x : bytes) : option nat :=
  if starts_with p x then Some 0
  else match x with
       | [] => None
       | _ :: x' => S <$> find_sub p x'
       end.

Definition is_space (c : ascii) : bool :=
  bool_decide (c = ascii_of_nat 32) || bool_decide (c = ascii_of_nat 9).

Fixpoint lstrip (x : bytes) : bytes :=
  match x with
  | c :: x' => if is_space c then lstrip x' else x
  | [] => []
  end.

Definition strip (x : bytes) : bytes :=
  reverse (lstrip (reverse (lstrip x))).

Fixpoint split_on (sep : ascii) (x : bytes) : list bytes :=
  match x with
  | [] => [[]]
  | c :: x' =>
      if decide (c = sep) then [] :: split_on sep x'
      else match split_on sep x' with
           | [] => [[c]]
           | l :: ls => (c :: l) :: ls
           end
  end.

Definition dquote : ascii := ascii_of_nat 34.

Definition unquote (x : bytes) : bytes :=
  match x with
  | q :: x' =>
      if bool_decide (q = dquote) && bool_decide (last x' = Some dquote)
      then take (length x' - 1) x' else x
  | [] => []
  end.

Definition option_of (segment : bytes) : option (bytes * bytes) :=
  match find_sub (bytes_of "=") segment with
  | Some j =>
      Some (bytes_lower (strip (take j segment)),
            unquote (strip (drop (S j) segment)))
  | None => None
  end.

(** Modelled from the spec: [multipart.parse_options_header] is imported
    from python-multipart and is not part of the repository.  Section 4.1
    and section 6 of the spec give its interface: a header value of the form
    [type; key=value; key=value] is split into the media type and its
    parameters, and a missing header has neither. *)
Definition model_parse_options_header (value : option bytes)
  : bytes * gmap bytes bytes :=
  match value with
  | None => ([], ∅)
  | Some x =>
      match split_on (ascii_of_nat 59) x with
      | [] => ([], ∅)
      | ctype :: rest =>
          (bytes_lower (strip ctype),
           fold_left (λ (m : gmap bytes bytes) kv, <[kv.1 := kv.2]> m)
                     (omap option_of rest) ∅)
      end
  end.

(** Modelled from the spec: starlette's [_user_safe_decode] is not part of
    the repository; section 4.3 says the name is decoded with the resolved
    charset.  The model decodes one character per byte, which is what every
    charset of the ASCII family does on ASCII names. *)
Definition model_user_safe_decode (src : bytes) (codec : string) : string :=
  string_of_list_ascii src.

Module SpecDecoder.

(** The states of the machine: positions inside the first delimiter line,
    inside a header line, inside the data of a part (with the number of
    bytes of a possible delimiter seen and held back), and after a
    delimiter. *)
Inductive phase : Type :=
  | AtStart (i : nat)
  | HeaderLine
  | InHeaderField
  | HeaderValueStart
  | InHeaderValue
  | HeaderLineCR
  | BlankLineCR
  | InData (i : nat)
  | AfterBoundary
  | AfterBoundaryCR
  | AfterBoundaryDash
  | AfterEnd.

Global Instance phase_eq_dec : EqDecision phase.
Proof. solve_decision. Defined.

Record state : Type := {
  boundary : bytes;
  current : phase
}.

Definition CR : ascii := ascii_of_nat 13.
Definition LF : ascii := ascii_of_nat 10.
Definition colon : ascii := ascii_of_nat 58.
Definition dash : ascii := ascii_of_nat 45.
Definition blank : ascii := ascii_of_nat 32.

(** The line that opens the body, and the delimiter that ends the data of
    a part. *)
Definition first_line (b : bytes) : bytes := [dash; dash] ++ b ++ [CR; LF].
Definition delimiter (b : bytes) : bytes := [CR; LF; dash; dash] ++ b.

Definition data_call (x : bytes) : list callback :=
  match x with
  | [] => []
  | _ => [on_part_data_call x 0 (length x)]
  end.

(** One byte of input. *)
Definition step (b : bytes) (ph : phase) (c : ascii)
  : result (phase * list callback) :=
  match ph with
  | AtStart i =>
      if decide (first_line b !! i = Some c) then
        if decide (S i = length (first_line b))
        then Ok (HeaderLine, [on_part_begin_call])
        else Ok (AtStart (S i), [])
      else Raise MultipartParseError
  | HeaderLine =>
      if decide (c = CR) then Ok (BlankLineCR, [])
      else if decide (c = colon) then Raise MultipartParseError
      else Ok (InHeaderField, [on_header_field_call [c] 0 1])
  | InHeaderField =>
      if decide (c = colon) then Ok (HeaderValueStart, [])
      else if decide (c = CR) then Raise MultipartParseError
      else Ok (InHeaderField, [on_header_field_call [c] 0 1])
  | HeaderValueStart =>
      if decide (c = blank) then Ok (HeaderValueStart, [])
      else if decide (c = CR) then Ok (HeaderLineCR, [])
      else Ok (InHeaderValue, [on_header_value_call [c] 0 1])
  | InHeaderValue =>
      if decide (c = CR) then Ok (HeaderLineCR, [])
      else Ok (InHeaderValue, [on_header_value_call [c] 0 1])
  | HeaderLineCR =>
      if decide (c = LF) then Ok (HeaderLine, [on_header_end_call])
      else Raise MultipartParseError
  | BlankLineCR =>
      if decide (c = LF) then Ok (InData 0, [on_headers_finished_call])
      else Raise MultipartParseError
  | InData i =>
      let d := delimiter b in
      if decide (d !! i = Some c) then
        if decide (S i = length d)
        then Ok (AfterBoundary, [on_part_end_call])
        else Ok (InData (S i), [])
      else if decide (c = CR) then Ok (InData 1, data_call (take i d))
      else Ok (InData 0, data_call (take i d ++ [c]))
  | AfterBoundary =>
      if decide (c = CR) then Ok (AfterBoundaryCR, [])
      else if decide (c = dash) then Ok (AfterBoundaryDash, [])
      else Raise MultipartParseError
  | AfterBoundaryCR =>
      if decide (c = LF) then Ok (HeaderLine, [on_part_begin_call])
      else Raise MultipartParseError
  | AfterBoundaryDash =>
      if decide (c = dash) then Ok (AfterEnd, [on_end_call])
      else Raise MultipartParseError
  | AfterEnd => Ok (AfterEnd, [])
  end.

Fixpoint steps (b : bytes) (ph : phase) (x : bytes)
  : result (phase * list callback) :=
  match x with
  | [] => Ok (ph, [])
  | c :: x' =>
      '(ph1, calls1) ← step b ph c;
      '(ph2, calls2) ← steps b ph1 x';
      Ok (ph2, calls1 ++ calls2)
  end.

(** Adjacent pieces of one header name, header value or part data are
    reported by one callback. *)
Fixpoint compact (calls : list callback) : list callback :=
  match calls with
  | [] => []
  | c :: calls' =>
      match c, compact calls' with
      | on_part_data_call d s e, on_part_data_call d' s' e' :: r =>
          let x := slice d s e ++ slice d' s' e' in
          on_part_data_call x 0 (length x) :: r
      | on_header_field_call d s e, on_header_field_call d' s' e' :: r =>
          let x := slice d s e ++ slice d' s' e' in
          on_header_field_call x 0 (length x) :: r
      | on_header_value_call d s e, on_header_value_call d' s' e' :: r =>
          let x := slice d s e ++ slice d' s' e' in
          on_header_value_call x 0 (length x) :: r
      | _, r => c :: r
      end
  end.

(** Modelled from the spec: the Event Decoder of section 4.2, in place of
    python-multipart's [MultipartParser], which is not part of the
    repository.  The decoder is a state machine fed byte by byte; it holds
    back the bytes that may begin a delimiter and emits no event for them
    until the match fails; it fails with [MultipartParseError] on a header
    line without separator and on framing that is not a delimiter line.  A
    decoder cannot be built without a boundary. *)
Definition new (b : option bytes) : result state :=
  match b with
  | Some b => Ok {| boundary := b; current := AtStart 0 |}
  | None => Raise TypeError
  end.

Definition write (s : state) (chunk : bytes)
  : result (state * list callback) :=
  '(ph, calls) ← steps (boundary s) (current s) chunk;
  Ok ({| boundary := boundary s; current := ph |}, compact calls).

(** Modelled from the spec: section 4.2, Finalization: closing the decoder
    while it is not in the state after End is a fatal decode error. *)
Definition finalize (s : state) : result (list callback) :=
  if decide (current s = AfterEnd) then Ok [] else Raise MultipartParseError.

End SpecDecoder.

(** The reference instances as one library. *)
Definition model_lib : MultipartLib :=
  {| Parser := SpecDecoder.state;
     MultipartParser := SpecDecoder.new;
     write := SpecDecoder.write;
     finalize := SpecDecoder.finalize;
     parse_options_header := model_parse_options_header;
     _user_safe_decode := model_user_safe_decode |}.

(** A request with the given [Content-Type] and body chunks. *)
Definition request_of (content_type : string) (chunks : list string)
  : Request :=
  {| scope := {| scope_headers :=
                   [(bytes_of "host", bytes_of "svc");
                    (bytes_of "content-type", bytes_of content_type)];
                 scope_rest := [] |};
     receive := map bytes_of chunks;
     _form := None; _body := None |}.

Definition CRLF : string :=
  String (ascii_of_nat 13) (String (ascii_of_nat 10) EmptyString).
Definition DQ : string := String dquote EmptyString.

(** The example of section 8: boundary [XYZ], one part named [file] with
    data [hello]. *)
Definition example_body : string :=
  "--XYZ" +:+ CRLF +:+
  "Content-Disposition: form-data; name=" +:+ DQ +:+ "file" +:+ DQ +:+ CRLF +:+
  "Content-Type: text/plain" +:+ CRLF +:+
  CRLF +:+ "hello" +:+ CRLF +:+ "--XYZ--" +:+ CRLF.

Definition example_ct : string := "multipart/form-data; boundary=XYZ".


(** The body of the example cut into chunks of one byte. *)
Definition bytewise (x : bytes) : list bytes := map (λ c, [c]) x.

Definition example_headers : list header :=
  scope_headers (scope (request_of example_ct [])).

(** ** Definitions used in the statements *)

(** The library with a [finalize] that fails when [finalize] fails and
    invokes no callback when it succeeds. *)
Definition silent_finalize (lib : MultipartLib) : MultipartLib :=
  {| Parser := @Parser lib;
     MultipartParser := @MultipartParser lib;
     write := @write lib;
     finalize := λ p, (λ _, []) <$> @finalize lib p;
     parse_options_header := @parse_options_header lib;
     _user_safe_decode := @_user_safe_decode lib |}.

(** A decoder that takes the end of the stream for the closing delimiter:
    the reference decoder, except that closing it inside the data of a part
    reports the end of the part and of the form through the callbacks. *)
Definition lazy_finalize (s : SpecDecoder.state) : result (list callback) :=
  match SpecDecoder.current s with
  | SpecDecoder.InData i =>
      Ok (SpecDecoder.data_call
            (take i (SpecDecoder.delimiter (SpecDecoder.boundary s)))
          ++ [on_part_end_call; on_end_call])
  | _ => SpecDecoder.finalize s
  end.

Definition lazy_lib : MultipartLib :=
  {| Parser := SpecDecoder.state;
     MultipartParser := SpecDecoder.new;
     write := SpecDecoder.write;
     finalize := lazy_finalize;
     parse_options_header := model_parse_options_header;
     _user_safe_decode := model_user_safe_decode |}.

(** The example body cut before the closing delimiter of its part. *)
Definition truncated_body : string :=
  "--XYZ" +:+ CRLF +:+
  "Content-Disposition: form-data; name=" +:+ DQ +:+ "file" +:+ DQ +:+ CRLF +:+
  CRLF +:+ "hello".



(** The media type [populate_multipart_requests] reads at lines 137-138. *)
Definition media_type `{lib : MultipartLib} (request : Request) : bytes :=
  (parse_options_header
     (Headers_get (scope_headers (scope request)) "Content-Type")).1.

Definition form_data : bytes := bytes_of "multipart/form-data".

(** The last item of a form with a given field name. *)
Definition last_item (f : string) (form : list form_item)
  : option form_item :=
  last (filter (λ it : form_item, it.1.1 = f) form).

(** A request whose scope repeats a header name, as an ASGI server
    delivers a header sent twice. *)
Definition dup_request : Request :=
  {| scope := {| scope_headers := [(bytes_of "accept", bytes_of "a");
                                   (bytes_of "accept", bytes_of "b")];
                 scope_rest := [] |};
     receive := []; _form := None; _body := None |}.

(** A body with two parts named [f], with data [A] then [B]. *)
Definition collision_body : string :=
  "--XYZ" +:+ CRLF +:+
  "Content-Disposition: form-data; name=" +:+ DQ +:+ "f" +:+ DQ +:+ CRLF +:+
  CRLF +:+ "A" +:+ CRLF +:+
  "--XYZ" +:+ CRLF +:+
  "Content-Disposition: form-data; name=" +:+ DQ +:+ "f" +:+ DQ +:+ CRLF +:+
  CRLF +:+ "B" +:+ CRLF +:+ "--XYZ--" +:+ CRLF.

(** Lines 137-139 followed by lines 69-75: what a call of
    [populate_multipart_requests] decides from the [Content-Type] header
    before the decoder is built, the charset and the boundary handed to
    [multipart.MultipartParser]. *)
Definition boundary_resolver `{lib : MultipartLib} (hs : list header)
  : result (string * option bytes) :=
  let '(content_type, _) :=
    parse_options_header (Headers_get hs "Content-Type") in
  if decide (content_type = bytes_of "multipart/form-data") then
    value ← Headers_getitem hs "Content-Type";
    Ok (content_type_params value)
  else Raise AssertionError.



(** A part whose header line has no separator. *)
Definition malformed_body : string :=
  "--XYZ" +:+ CRLF +:+ "Content-Disposition" +:+ CRLF +:+
  CRLF +:+ "hello" +:+ CRLF +:+ "--XYZ--" +:+ CRLF.

(** A part whose content-disposition has no [name] parameter. *)
Definition no_name_body : string :=
  "--XYZ" +:+ CRLF +:+ "Content-Disposition: form-data" +:+ CRLF +:+
  CRLF +:+ "hello" +:+ CRLF +:+ "--XYZ--" +:+ CRLF.

Definition invalid_multipart : exn :=
  BentoMLException "Invalid multipart requests".

(** A response with the given body. *)
Definition response_of (x : string) : Response :=
  {| body := bytes_of x; raw_headers := [] |}.

(** The two responses of the merge example of section 8. *)
Definition abc_def : list (string * Response) :=
  [("a", response_of "abc"); ("b", response_of "def")].

Definition is_lower_hex (c : ascii) : bool :=
  bool_decide (c ∈ bytes_of "0123456789abcdef").


(** A part with no [name], followed by a part whose header line has no
    separator. *)
Definition no_name_then_malformed : string :=
  "--XYZ" +:+ CRLF +:+ "Content-Disposition: form-data" +:+ CRLF +:+
  CRLF +:+ "hello" +:+ CRLF +:+
  "--XYZ" +:+ CRLF +:+ "Content-Disposition" +:+ CRLF +:+
  CRLF +:+ "bye" +:+ CRLF +:+ "--XYZ--" +:+ CRLF.

(** ** Whole parts

    The messages of a form whose header names, header values and part data
    are reported in one piece each, in the order the callbacks of a decoder
    report a body: for every part [PART_BEGIN], its headers, then
    [HEADERS_FINISHED], its data and [PART_END]; [END] after the last
    part. *)

Definition header_messages (h : header) : list message :=
  [(HEADER_FIELD, h.1); (HEADER_VALUE, h.2); (HEADER_END, [])].

Definition part_messages (p : list header * bytes) : list message :=
  (PART_BEGIN, []) :: flat_map header_messages p.1
  ++ [(HEADERS_FINISHED, []); (PART_DATA, p.2); (PART_END, [])].

Definition form_messages (parts : list (list header * bytes))
  : list message :=
  flat_map part_messages parts ++ [(END, [])].

(** The headers of a part with their names lower-cased (line 116). *)
Definition lowered (hs : list header) : list header :=
  map (λ h : header, (bytes_lower h.1, h.2)) hs.

Definition not_content_disposition (h : header) : Prop :=
  h.1 ≠ bytes_of "content-disposition".

Global Instance not_content_disposition_dec (h : header) :
  Decision (not_content_disposition h).
Proof. unfold not_content_disposition. apply _. Defined.

(** The item of a part: the name given by its last content-disposition
    header, its other headers, its data; the [KeyError] of line 126 when
    no name is given. *)
Definition part_item `{lib : MultipartLib} (charset : string)
    (p : list header * bytes) : result form_item :=
  let hs := lowered p.1 in
  let '(_, options) :=
    parse_options_header
      (last_value (bytes_of "content-disposition") hs) in
  match options !! bytes_of "name" with
  | Some v =>
      Ok (_user_safe_decode v charset, filter not_content_disposition hs,
          p.2)
  | None => Raise (KeyError (bytes_of "name"))
  end.

Fixpoint form_items `{lib : MultipartLib} (charset : string)
    (parts : list (list header * bytes)) : result (list form_item) :=
  match parts with
  | [] => Ok []
  | p :: parts' =>
      item ← part_item charset p;
      rest ← form_items charset parts';
      Ok (item :: rest)
  end.

(** The state of the loop after the three messages of a header
    (lines 111-122). *)
Definition after_header (st : locals) (h : header) : locals :=
  let field := bytes_lower h.1 in
  set_header_value []
    (set_header_field []
       (if decide (field = bytes_of "content-disposition")
        then set_content_disposition (Some h.2) st
        else headers_append (field, h.2) st)).

Definition after_headers (st : locals) (hs : list header) : locals :=
  fold_left after_header hs st.

(** Between two parts: no header is being accumulated, and the header list
    of every item exists. *)
Definition between_parts (st : locals) : Prop :=
  header_field st = [] ∧ header_value st = [] ∧
  Forall (λ it : string * nat * bytes, it.1.2 < length (heap st)) (items st).

(** The parts of the example body: its two headers and its data. *)
Definition example_parts : list (list header * bytes) :=
  [([(bytes_of "Content-Disposition",
      bytes_of ("form-data; name=" +:+ DQ +:+ "file" +:+ DQ));
     (bytes_of "Content-Type", bytes_of "text/plain")],
    bytes_of "hello")].

(** The number of [PART_END] messages. *)
Definition part_ends (ms : list message) : nat :=
  length (filter (λ m : message, m.1 = PART_END) ms).

(** The field names of a form. *)
Definition field_names (form : list form_item) : list string :=
  map (λ it : form_item, it.1.1) form.

(** A body with two parts of different names. *)
Definition two_fields_body : string :=
  "--XYZ" +:+ CRLF +:+
  "Content-Disposition: form-data; name=" +:+ DQ +:+ "a" +:+ DQ +:+ CRLF +:+
  "X-Part: 1" +:+ CRLF +:+
  CRLF +:+ "A" +:+ CRLF +:+
  "--XYZ" +:+ CRLF +:+
  "Content-Disposition: form-data; name=" +:+ DQ +:+ "b" +:+ DQ +:+ CRLF +:+
  CRLF +:+ "B" +:+ CRLF +:+ "--XYZ--" +:+ CRLF.

(** The example body up to the delimiter that ends its part. *)
Definition one_part_chunk : string := truncated_body +:+ CRLF +:+ "--XYZ".

(** The value of a hexadecimal digit, and the byte two digits spell. *)
Definition unhex_digit (c : ascii) : N :=
  let n := N_of_ascii c in
  if (n <? 58)%N then (n - 48)%N else (n - 87)%N.

Definition unhex_pair (hi lo : ascii) : ascii :=
  ascii_of_N (16 * unhex_digit hi + unhex_digit lo).

(** [binascii.unhexlify] on an even number of digits. *)
Fixpoint unhexlify (x : bytes) : bytes :=
  match x with
  | hi :: lo :: x' => unhex_pair hi lo :: unhexlify x'
  | _ => []
  end.

(** The keys of a list of pairs in the order of their first occurrence. *)
Fixpoint first_occurrences {K : Type} `{EqDecision K} (l : list K) : list K :=
  match l with
  | [] => []
  | x :: l' => x :: filter (λ y, y ≠ x) (first_occurrences l')
  end.

(** ** bentoml/_internal/configuration/__init__.py

    The functions of the configuration module that read and write the
    environment of the process.  [os.environ] is a map from names to
    values, and the records handed to [logger.info] are kept in order. *)

Module Configuration.

Definition DEBUG_ENV_VAR : string := "BENTOML_DEBUG".
Definition QUIET_ENV_VAR : string := "BENTOML_QUIET".
Definition CONFIG_ENV_VAR : string := "BENTOML_CONFIG".
Definition CONFIG_OVERRIDE_ENV_VAR : string := "BENTOML_CONFIG_OPTIONS".
Definition CONFIG_OVERRIDE_JSON_ENV_VAR : string := "BENTOML_CONFIG_OVERRIDES".
Definition GRPC_DEBUG_ENV_VAR : string := "GRPC_VERBOSITY".

(** What the functions of the module read and write: [os.environ], the
    records handed to the logger and the messages handed to
    [warnings.warn]. *)
Record process : Type := {
  environ : gmap string string;
  logged : list string;
  warned : list string
}.

(** [str(enabled)] for a bool. *)
Definition str_of_bool (b : bool) : string := if b then "True" else "False".

(** [s.lower()]: the letters [A]..[Z] become [a]..[z].  No other character
    of a Python string lowers to a letter of [true], so the comparison of
    a lowered string with that word is decided by these letters. *)
Definition str_lower (s : string) : string :=
  string_of_list_ascii (bytes_lower (list_ascii_of_string s)).

(** Lines 121-128 *)
Definition set_debug_mode (enabled : bool) (p : process) : process :=
  {| environ := <[GRPC_DEBUG_ENV_VAR := "DEBUG"]>
                  (<[DEBUG_ENV_VAR := str_of_bool enabled]> (environ p));
     logged := logged p
               ++ [(if enabled then "Enabling" else "Disabling")
                   +:+ " debug mode for current BentoML session"];
     warned := warned p |}.

(** Lines 131-134 *)
Definition get_debug_mode (p : process) : bool :=
  match environ p !! DEBUG_ENV_VAR with
  | Some v => bool_decide (str_lower v = "true")
  | None => false
  end.

(** Lines 137-140 *)
Definition set_quiet_mode (enabled : bool) (p : process) : process :=
  {| environ := <[GRPC_DEBUG_ENV_VAR := "NONE"]>
                  (<[QUIET_ENV_VAR := str_of_bool enabled]> (environ p));
     logged := logged p;
     warned := warned p |}.

(** Lines 143-146 *)
Definition get_quiet_mode (p : process) : bool :=
  match environ p !! QUIET_ENV_VAR with
  | Some v => bool_decide (str_lower v = "true")
  | None => false
  end.

(** [expand_env_var] (lines 35-44).  [interpolate] is
    [os.path.expanduser(os.path.expandvars(_))] in the environment of the
    call.  The loop has no bound: [fuel] counts its iterations and [None]
    stands for a run that has not returned within them. *)
Fixpoint expand_env_var (fuel : nat) (interpolate : string → string)
    (env_var : string) : option string :=
  match fuel with
  | 0 => None
  | S fuel' =>
      let interpolated := interpolate env_var in
      if decide (interpolated = env_var) then Some interpolated
      else expand_env_var fuel' interpolate interpolated
  end.

(** [s.split(sep)[0]] for a separator of one character: what precedes its
    first occurrence, the whole string when it does not occur. *)
Fixpoint before_first (sep : ascii) (s : string) : string :=
  match s with
  | EmptyString => EmptyString
  | String c s' =>
      if decide (c = sep) then EmptyString else String c (before_first sep s')
  end.

(** [s.split(sep)[-1]]: what follows the last occurrence of the
    separator. *)
Fixpoint after_last (sep : ascii) (s : string) : string :=
  match s with
  | EmptyString => EmptyString
  | String c s' =>
      if bool_decide (sep ∈ list_ascii_of_string s') then after_last sep s'
      else if decide (c = sep) then s'
      else s
  end.

Definition plus : ascii := ascii_of_nat 43.
Definition dot : ascii := ascii_of_nat 46.

(** [clean_bentoml_version] (lines 47-53).  [Version] is
    [packaging.version.Version] followed by [str]: the normalised version,
    or [None] when the constructor raises its [ValueError]. *)
Definition clean_bentoml_version (Version : string → option string)
    (bentoml_version : string) : result string :=
  let post_version := before_first plus bentoml_version in
  match Version post_version with
  | Some version => Ok version
  | None => Raise (BentoMLException "Errors while parsing BentoML version.")
  end.

(** [is_pypi_installed_bentoml] (lines 56-88), as a function of the module
    constant [BENTOML_VERSION] and of [__version_tuple__]: [None] when
    [bentoml._version] cannot be imported, else the elements before the
    last one and the last one, as [str] shows them. *)
Definition is_pypi_installed_bentoml (BENTOML_VERSION : string)
    (imported : option (list string * string)) : bool :=
  let __version_tuple__ :=
    match imported with
    | Some t => t
    | None => (["0"; "0"; "0"], "dirty")
    end in
  let is_tagged := negb (String.prefix "0.1." BENTOML_VERSION) in
  let is_clean :=
    negb (String.prefix "d" (after_last dot __version_tuple__.2)) in
  let not_been_modified :=
    bool_decide (BENTOML_VERSION = before_first plus BENTOML_VERSION) in
  is_tagged && is_clean && not_been_modified.

(** ** Loading the configuration *)

Inductive config_error : Type :=
  | BentoMLConfigException (message : string)
  | FileNotFoundError (message : string)
  | External (name : string).

(** [s.endswith(suffix)] *)
Definition endswith (s suffix : string) : bool :=
  bool_decide
    (list_ascii_of_string suffix `suffix_of` list_ascii_of_string s).

Definition deprecation : string :=
  "Overriding BentoML config with " +:+ CONFIG_OVERRIDE_ENV_VAR
  +:+ " is deprecated and will be removed in future release. Please use "
  +:+ CONFIG_OVERRIDE_JSON_ENV_VAR +:+ " instead.".

Definition bad_extension (file : string) : string :=
  "BentoML config file specified in ENV VAR does not end with either "
  +:+ "'.yaml' or '.yml': 'BENTOML_CONFIG=" +:+ file +:+ "'".

Definition not_found (file : string) : string :=
  "BentoML config file specified in ENV VAR not found: 'BENTOML_CONFIG="
  +:+ file +:+ "'".

Section load_config.
Context {Defaults Json Config : Type}.

(** [os.path.expanduser(os.path.expandvars(_))] under an environment,
    [os.path.isfile], [json.loads], and [BentoMLConfiguration(...)]
    followed by [to_dict()]; the last two return or raise. *)
Variable interpolate : gmap string string → string → string.
Variable isfile : string → bool.
Variable json_loads : string → config_error + Json.
Variable BentoMLConfiguration :
  option string → option string → option Defaults → option Json → nat →
  config_error + Config.

(** Lines 91-95.  [None] when the expansion has not returned within
    [fuel] iterations. *)
Definition get_bentoml_config_file_from_env (fuel : nat) (p : process)
    : option (option string) :=
  match environ p !! CONFIG_ENV_VAR with
  | Some v => Some <$> expand_env_var fuel (interpolate (environ p)) v
  | None => Some None
  end.

(** Lines 98-108 *)
Definition get_bentoml_override_config_from_env (p : process)
    : process * option string :=
  match environ p !! CONFIG_OVERRIDE_ENV_VAR with
  | Some v =>
      ({| environ := environ p;
          logged := logged p;
          warned := warned p ++ [deprecation] |}, Some v)
  | None => (p, None)
  end.

(** Lines 111-118 *)
Definition get_bentoml_override_config_json_from_env (p : process)
    : config_error + option Json :=
  match environ p !! CONFIG_OVERRIDE_JSON_ENV_VAR with
  | Some values =>
      if decide (values = EmptyString) then inr None
      else match json_loads values with
           | inr j => inr (Some j)
           | inl e => inl e
           end
  | None => inr None
  end.

(** Truth value of an optional [str]. *)
Definition nonempty (s : option string) : bool :=
  match s with
  | Some (String _ _) => true
  | _ => false
  end.

(** [load_config] (lines 149-180).  The result is the process after the
    call and either the exception raised or the dictionary stored in
    [BentoMLContainer.config]. *)
Definition load_config (fuel : nat) (bentoml_config_file : option string)
    (override_defaults : option Defaults) (use_version : nat) (p : process)
    : option (process * (config_error + Config)) :=
  file ← (if nonempty bentoml_config_file then Some bentoml_config_file
          else get_bentoml_config_file_from_env fuel p);
  let configure :=
    let '(p1, values) := get_bentoml_override_config_from_env p in
    match get_bentoml_override_config_json_from_env p1 with
    | inl e => (p1, inl e)
    | inr json =>
        (p1, BentoMLConfiguration file values override_defaults json
               use_version)
    end in
  Some
    match file with
    | Some (String _ _ as f) =>
        if negb (endswith f ".yml" || endswith f ".yaml")
        then (p, inl (BentoMLConfigException (bad_extension f)))
        else if negb (isfile f)
        then (p, inl (FileNotFoundError (not_found f)))
        else configure
    | _ => configure
    end.

End load_config.

End Configuration.

(** An interpolation that resolves [$A] to [$B] and [$B] to [/srv]. *)
Definition example_interpolate (s : string) : string :=
  if decide (s = "$A") then "$B"
  else if decide (s = "$B") then "/srv"
  else s.

(** * Model artifacts: bentoml/_internal/artifacts/base.py *)

Module Artifacts.

(** The values the model distinguishes: a [str]; the bound class method
    [_ArtifactMeta._get_path]; any other object, which is no path, is not
    callable and is equal to no [str]. *)
Inductive value : Type :=
  | Str (s : string)
  | GetPath
  | Object (id : nat).

Global Instance value_eq_dec : EqDecision value.
Proof. solve_decision. Defined.

Inductive error : Type :=
  | AssertionError (msg : string)
  | AttributeError (name : string)
  | IndexError
  | NotImplementedError
  | TypeError.

Definition _MODEL_NAMESPACE : string := "bentoml_model".

(** Lines 29-39 *)
Definition _FILE_EXTENSION : list (string * string) :=
  [ ("H5_EXTENSION", ".h5");
    ("HDF5_EXTENSION", ".hdf5");
    ("JSON_EXTENSION", ".json");
    ("PICKLE_EXTENSION", ".pkl");
    ("PTH_EXTENSION", ".pth");
    ("PT_EXTENSION", ".pt");
    ("TXT_EXTENSION", ".txt");
    ("YAML_EXTENSION", ".yaml");
    ("YML_EXTENSION", ".yml") ].

Definition slash : ascii := ascii_of_nat 47.

(** [s.endswith(c)] for one character. *)
Definition ends_with (c : ascii) (s : string) : bool :=
  bool_decide (last (list_ascii_of_string s) = Some c).

(** [os.path.join(a, b)] of the POSIX path module on two [str]: an
    absolute [b] replaces [a]; otherwise [b] is appended, after a slash
    unless [a] is empty or ends with one. *)
Definition os_path_join (a b : string) : string :=
  if String.prefix (String slash EmptyString) b then b
  else if bool_decide (a = EmptyString) || ends_with slash a then a +:+ b
  else a +:+ String slash b.

(** How the f-string of line 63 shows [ext]: a [str] as it is, [None] by
    its name. *)
Definition format_ext (ext : option string) : string :=
  match ext with
  | Some e => e
  | None => "None"
  end.

(** [_ArtifactMeta._get_path] (lines 41-63), for a [str] path.  The method
    is bound to the metaclass when [__new__] stores it, so
    [cls._MODEL_NAMESPACE] is the constant of the metaclass. *)
Definition _get_path (path : string) (ext : option string) : string :=
  os_path_join path (_MODEL_NAMESPACE +:+ format_ext ext).

(** [_ArtifactMeta.__new__] (lines 66-70): the namespace handed to
    [type.__new__], from the namespace of the class body. *)
Definition __new__ (namespace : list (string * value))
    : list (string * value) :=
  dict_update
    (dict_set "get_path" GetPath
       (dict_set "_MODEL_NAMESPACE" (Str _MODEL_NAMESPACE) namespace))
    (prod_map id Str <$> _FILE_EXTENSION).

(** The names [__new__] writes. *)
Definition reserved : list string :=
  "_MODEL_NAMESPACE" :: "get_path" :: _FILE_EXTENSION.*1.

Section ModelArtifact.
Context {M V R : Type}.

(** Lines 109-119 *)
Record ModelArtifact : Type := {
  _model : M;
  _metadata : option (list (string * V))
}.


Definition model (self : ModelArtifact) : M := _model self.

(** Truth value of [self.metadata]: [None] and the empty dict are false. *)
Definition truthy (m : option (list (string * V))) : bool :=
  match m with
  | Some (_ :: _) => true
  | _ => false
  end.


(** A call: positional arguments, keyword arguments. *)
Definition arguments : Type := list value * list (string * value).

(** [pathlib.Path(_)] followed by the name it opens, and the text
    [YAML().dump] writes for a metadata dict. *)
Variable Path : string → string.
Variable dump : list (string * V) → string.

(** How an f-string shows a value that is no [str]. *)
Variable repr : value → string.

(** The attributes of the class of [self], as [__new__] left them; the
    model has no instance attribute of the names looked up. *)
Variable cls : list (string * value).




Definition assert_msg : string := "`load()` requires positional `path`".

(** [wrapped_load] (lines 182-186) *)
Definition wrapped_load (inherited : arguments → error + R)
    (args_kw : arguments) : error + R :=
  if bool_decide (Str "path" ∈ args_kw.1) then inherited args_kw
  else inl (AssertionError assert_msg).

(** [ModelArtifact.load] (lines 121-133), called with [cls] bound: one
    argument [path], then [NotImplementedError]. *)
Definition load (args_kw : arguments) : error + R :=
  match args_kw with
  | ([_], []) => inl NotImplementedError
  | ([], [(name, _)]) =>
      if decide (name = "path") then inl NotImplementedError else inl TypeError
  | _ => inl TypeError
  end.


End ModelArtifact.

End Artifacts.


(** An expansion that resolves [$CONF] and a process whose environment
    names a configuration file through it. *)
Definition config_interpolate (env : gmap string string) (s : string)
    : string :=
  if decide (s = "$CONF/bentoml.yaml") then "/srv/bentoml.yaml" else s.

Definition config_process : Configuration.process :=
  {| Configuration.environ :=
       {[ Configuration.CONFIG_ENV_VAR := "$CONF/bentoml.yaml";
          Configuration.CONFIG_OVERRIDE_ENV_VAR := "api_server.port=5000" ]};
     Configuration.logged := [];
     Configuration.warned := [] |}.

(** * Properties *)

(** ** The result monad *)

Lemma bind_Ok_inv {A B} (m : result A) (f : A → result B) (b : B) :
  (m ≫= f) = Ok b → ∃ a, m = Ok a ∧ f a = Ok b.
Proof. destruct m as [a|e]; [eauto | discriminate]. Qed.

(** ** Bytes *)



(** ** The loop over the messages *)

Section handle_facts.
Context `{lib : MultipartLib}.

Lemma handle_all_cons (cs : string) (st : locals) (m : message)
    (ms : list message) :
  handle_all cs st (m :: ms)
  = (handle cs st m ≫= λ st', handle_all cs st' ms).
Proof. reflexivity. Qed.

Lemma handle_all_app (cs : string) (st : locals) (ms1 ms2 : list message) :
  handle_all cs st (ms1 ++ ms2)
  = (handle_all cs st ms1 ≫= λ st', handle_all cs st' ms2).
Proof.
  revert st. induction ms1 as [|m ms1 IH]; intros st; simpl; [reflexivity|].
  destruct (handle cs st m) as [st1|e]; simpl; [apply IH | reflexivity].
Qed.

(** With a decoder that accepts every chunk the loop over the stream is the
    loop over all the messages of the stream: the state of [parse] lives
    across the chunks. *)
Lemma feed_write_all (cs : string) (chunks : list bytes) :
  ∀ (p p' : Parser) (st : locals) (calls : list callback),
    write_all p chunks = Ok (p', calls) →
    feed cs p [] st chunks
    = (handle_all cs st (map invoke calls) ≫= λ st', Ok (p', [], st')).
Proof.
  induction chunks as [|c rest IH]; intros p p' st calls Hw; simpl in *.
  - inversion Hw; subst. reflexivity.
  - destruct (write p c) as [[p1 calls1]|e]; simpl in *; [|discriminate].
    destruct (write_all p1 rest) as [[p2 calls2]|e] eqn:Hrest; simpl in *;
      [|discriminate].
    inversion Hw; subst.
    rewrite map_app, handle_all_app.
    destruct (handle_all cs st (map invoke calls1)) as [st1|e]; simpl;
      [|reflexivity].
    apply (IH _ _ _ _ Hrest).
Qed.

(** A chunk the decoder rejects ends the loop with the decoder's error,
    provided the messages of the chunks before it were handled. *)
Lemma feed_write_error (cs : string) (before : list bytes) (bad : bytes)
    (after : list bytes) (e : exn) :
  ∀ (p p' : Parser) (st st' : locals) (calls : list callback),
    write_all p before = Ok (p', calls) →
    handle_all cs st (map invoke calls) = Ok st' →
    write p' bad = Raise e →
    feed cs p [] st (before ++ bad :: after) = Raise e.
Proof.
  induction before as [|c rest IH]; intros p p' st st' calls Hw Hh Hbad;
    simpl in *.
  - inversion Hw; subst. rewrite Hbad. reflexivity.
  - destruct (write p c) as [[p1 calls1]|e1]; simpl in *; [|discriminate].
    destruct (write_all p1 rest) as [[p2 calls2]|e2] eqn:Hrest; simpl in *;
      [|discriminate].
    inversion Hw; subst.
    rewrite map_app, handle_all_app in Hh.
    destruct (handle_all cs st (map invoke calls1)) as [st1|e1]; simpl in *;
      [|discriminate].
    apply (IH _ _ _ _ _ Hrest Hh Hbad).
Qed.

End handle_facts.

(** ** Fragments and chunking *)



Section chunking.
Context `{lib : MultipartLib}.

Lemma handle_fragment_nil (cs : string) (st : locals) (t : MultiPartMessage) :
  is_fragment t = true → handle cs st (t, []) = Ok st.
Proof.
  destruct st; destruct t; simpl; intros Ht; try discriminate;
    unfold set_data, set_header_field, set_header_value; simpl;
    rewrite app_nil_r; reflexivity.
Qed.

Lemma handle_fragment_join (cs : string) (st : locals) (t : MultiPartMessage)
    (x y : bytes) (ms : list message) :
  is_fragment t = true →
  handle_all cs st ((t, x) :: (t, y) :: ms)
  = handle_all cs st ((t, x ++ y) :: ms).
Proof.
  destruct st; destruct t; simpl; intros Ht; try discriminate;
    unfold set_data, set_header_field, set_header_value; simpl;
    rewrite app_assoc; reflexivity.
Qed.

(** A fragment handled byte by byte is the fragment handled at once. *)
Lemma handle_all_spelled_fragment (cs : string) (t : MultiPartMessage)
    (x : bytes) (ms : list message) :
  is_fragment t = true →
  ∀ st, handle_all cs st (map (λ c, (t, [c])) x ++ ms)
        = handle_all cs st ((t, x) :: ms).
Proof.
  intros Ht. induction x as [|c x IH]; intros st.
  - simpl map. simpl app.
    rewrite (handle_all_cons cs st (t, [])), handle_fragment_nil
      by assumption.
    reflexivity.
  - change (c :: x) with ([c] ++ x) at 2.
    rewrite <- handle_fragment_join by assumption.
    simpl map. simpl app. rewrite !(handle_all_cons cs st (t, [c])).
    destruct (handle cs st _) as [st1|e]; simpl; [apply IH | reflexivity].
Qed.

(** The loop cannot tell a message list from its spelling: only the
    concatenation of the fragments of a header name, a header value or a
    part's data reaches the items. *)
Lemma handle_all_spell (cs : string) (ms : list message) :
  ∀ st, handle_all cs st (spell ms) = handle_all cs st ms.
Proof.
  induction ms as [|[t x] ms IH]; intros st; [reflexivity|].
  change (spell ((t, x) :: ms)) with (spell_message (t, x) ++ spell ms).
  unfold spell_message. simpl fst. simpl snd.
  destruct (is_fragment t) eqn:Ht.
  - rewrite handle_all_spelled_fragment by assumption.
    rewrite !handle_all_cons.
    destruct (handle cs st _) as [st1|e]; simpl; [apply IH | reflexivity].
  - simpl app. rewrite !handle_all_cons.
    destruct (handle cs st _) as [st1|e]; simpl; [apply IH | reflexivity].
Qed.

Lemma handle_all_spell_eq (cs : string) (st : locals)
    (ms1 ms2 : list message) :
  spell ms1 = spell ms2 →
  handle_all cs st ms1 = handle_all cs st ms2.
Proof.
  intros H. rewrite <- (handle_all_spell cs ms1),
    <- (handle_all_spell cs ms2), H. reflexivity.
Qed.

(** [parse] on a stream the decoder accepts: the items are those of the
    messages of all the writes. *)
Lemma parse_write_all (hs : list header) (chunks : list bytes)
    (value : bytes) (p0 p : Parser) (calls fin : list callback) :
  Headers_getitem hs "Content-Type" = Ok value →
  MultipartParser (content_type_params value).2 = Ok p0 →
  write_all p0 chunks = Ok (p, calls) →
  finalize p = Ok fin →
  fst <$> parse (MultiPartParser_init hs chunks)
  = form_of <$> handle_all (content_type_params value).1 locals_init
                           (map invoke calls).
Proof.
  intros Hv Hp Hw Hf. unfold parse. simpl. rewrite Hv. simpl.
  destruct (content_type_params value) as [cs b]. simpl in *.
  rewrite Hp. simpl. rewrite (feed_write_all _ _ _ _ _ _ Hw).
  destruct (handle_all cs locals_init (map invoke calls)) as [st|e]; simpl;
    [|reflexivity].
  rewrite Hf. reflexivity.
Qed.




End chunking.

(** ** The reference decoder meets the contract *)








(** Without the premise that the body is accepted the outcome does depend
    on the chunks: for a body whose first part has no name and whose second
    part is malformed, the decoder rejects the body given as one chunk
    before any message is handled, while byte by byte the missing name is
    met first. *)
Example error_depends_on_chunking :
  @populate_multipart_requests model_lib
     (request_of example_ct [no_name_then_malformed])
  = Raise invalid_multipart ∧
  @populate_multipart_requests model_lib
     {| scope := scope (request_of example_ct []);
        receive := bytewise (bytes_of no_name_then_malformed);
        _form := None; _body := None |}
  = Raise (KeyError (bytes_of "name")).
Proof. split; vm_compute; reflexivity. Qed.

(** ** Events of [finalize] *)

(** C9. The items [MultiPartParser.parse] returns are assembled from the
    messages drained after each [parser.write] only: whatever callbacks
    [parser.finalize()] invokes after the last chunk, the items are those
    returned with a [finalize] that invokes none. *)
Theorem parse_ignores_finalize_events (lib : MultipartLib)
    (self : MultiPartParser) :
  fst <$> @parse lib self = fst <$> @parse (silent_finalize lib) self.
Proof.
  unfold parse.
  destruct (Headers_getitem (mp_headers self) "Content-Type") as [value|e];
    [|reflexivity].
  simpl.
  change (@content_type_params (silent_finalize lib))
    with (@content_type_params lib).
  destruct (content_type_params value) as [cs b].
  change (@MultipartParser (silent_finalize lib)) with (@MultipartParser lib).
  destruct (MultipartParser b) as [p0|e]; [|reflexivity].
  simpl.
  change (@feed (silent_finalize lib)) with (@feed lib).
  destruct (feed cs p0 (messages self) locals_init (mp_stream self))
    as [[[p q] st]|e]; [|reflexivity].
  simpl.
  destruct (@finalize lib p) as [fin|e]; reflexivity.
Qed.

(** A part whose end is reported at finalization only is not in the items:
    its [PART_END] message stays in the queue of the parser object. *)
Example part_end_at_finalize_is_lost :
  @parse lazy_lib
     (MultiPartParser_init example_headers [bytes_of truncated_body])
  = Ok ([], {| mp_headers := example_headers; mp_stream := [];
               messages := [(PART_END, []); (END, [])] |}).
Proof. vm_compute. reflexivity. Qed.


(** ** Header names *)

Section header_names.
Context `{lib : MultipartLib}.










End header_names.



(** ** Insertion-ordered dictionaries *)

Section odict_facts.
Context {K V : Type} `{EqDecision K}.
Implicit Types (k : K) (v : V) (d l : list (K * V)).

Lemma dict_get_set_eq k v d : dict_get k (dict_set k v d) = Some v.
Proof.
  induction d as [|[k' v'] d IH]; simpl.
  - rewrite decide_True by reflexivity. reflexivity.
  - destruct (decide (k = k')) as [->|Hne]; simpl.
    + rewrite decide_True by reflexivity. reflexivity.
    + rewrite decide_False by assumption. exact IH.
Qed.

Lemma dict_get_set_ne k k' v d :
  k ≠ k' → dict_get k' (dict_set k v d) = dict_get k' d.
Proof.
  intros Hne. induction d as [|[k1 v1] d IH]; simpl.
  - rewrite decide_False by congruence. reflexivity.
  - destruct (decide (k = k1)) as [->|Hne1]; simpl.
    + rewrite !decide_False by congruence. reflexivity.
    + destruct (decide (k' = k1)); [reflexivity | exact IH].
Qed.

Lemma dict_set_keys k v d :
  (dict_set k v d).*1
  = d.*1 ++ (if decide (k ∈ d.*1) then [] else [k]).
Proof.
  induction d as [|[k' v'] d IH]; simpl; [reflexivity|].
  destruct (decide (k = k')) as [->|Hne]; simpl.
  - rewrite decide_True by apply list_elem_of_here.
    rewrite app_nil_r. reflexivity.
  - f_equal. etransitivity; [exact IH|]. f_equal.
    destruct (decide (k ∈ d.*1)) as [Hin|Hnin];
      destruct (decide (k ∈ k' :: _)) as [Hin'|Hnin']; try reflexivity.
    + exfalso. apply Hnin', list_elem_of_further, Hin.
    + exfalso. apply elem_of_cons in Hin' as [?|?]; contradiction.
Qed.

Lemma dict_set_NoDup k v d : NoDup d.*1 → NoDup (dict_set k v d).*1.
Proof.
  intros Hd. rewrite dict_set_keys.
  destruct (decide (k ∈ d.*1)) as [Hin|Hnin].
  - rewrite app_nil_r. exact Hd.
  - apply NoDup_app. split; [exact Hd|]. split.
    + intros x Hx Hx'. apply list_elem_of_singleton in Hx'. subst.
      contradiction.
    + apply NoDup_singleton.
Qed.

Lemma dict_update_NoDup d l : NoDup d.*1 → NoDup (dict_update d l).*1.
Proof.
  revert d. induction l as [|[k v] l IH]; intros d Hd; simpl; [exact Hd|].
  apply IH, dict_set_NoDup, Hd.
Qed.

Lemma dict_of_NoDup l : NoDup (dict_of l).*1.
Proof. apply dict_update_NoDup. constructor. Qed.

(** [d.update(pairs)]: the last value the pairs give a key, and the value
    of [d] for the keys they do not mention. *)
Lemma dict_get_update k d l :
  dict_get k (dict_update d l)
  = match last_value k l with
    | Some v => Some v
    | None => dict_get k d
    end.
Proof.
  revert d. induction l as [|[k' v'] l IH]; intros d; simpl; [reflexivity|].
  change (dict_get k (dict_update (dict_set k' v' d) l)
          = match match last_value k l with
                  | Some v => Some v
                  | None => if decide (k = k') then Some v' else None
                  end
            with Some v => Some v | None => dict_get k d end).
  rewrite IH. destruct (last_value k l) as [v|]; [reflexivity|].
  destruct (decide (k = k')) as [->|Hne].
  - apply dict_get_set_eq.
  - apply dict_get_set_ne. congruence.
Qed.

Lemma dict_get_of k l : dict_get k (dict_of l) = last_value k l.
Proof.
  unfold dict_of. rewrite dict_get_update.
  destruct (last_value k l); reflexivity.
Qed.

Lemma dict_get_Some_elem k v d : dict_get k d = Some v → (k, v) ∈ d.
Proof.
  induction d as [|[k' v'] d IH]; simpl; [discriminate|].
  destruct (decide (k = k')) as [->|Hne].
  - intros [= ->]. apply list_elem_of_here.
  - intros Hg. apply list_elem_of_further, IH, Hg.
Qed.

Lemma last_value_None k l : last_value k l = None ↔ k ∉ l.*1.
Proof.
  induction l as [|[k' v'] l IH]; simpl.
  - split; [intros _; apply not_elem_of_nil | reflexivity].
  - destruct (last_value k l) as [v|].
    + split; [discriminate|]. intros Hnin. exfalso.
      assert (k ∉ l.*1) as Hn
        by (intros Hin; apply Hnin, list_elem_of_further, Hin).
      apply IH in Hn. discriminate.
    + destruct (decide (k = k')) as [->|Hne].
      * split; [discriminate|]. intros Hnin. exfalso.
        apply Hnin, list_elem_of_here.
      * split; [|reflexivity]. intros _ Hin.
        apply elem_of_cons in Hin as [?|Hin]; [contradiction|].
        destruct IH as [IH _]. exact (IH eq_refl Hin).
Qed.

(** In a dictionary, which has one pair per key, the last value of a key is
    the value stored. *)
Lemma last_value_NoDup_get k d : NoDup d.*1 → last_value k d = dict_get k d.
Proof.
  induction d as [|[k' v'] d IH]; simpl; intros Hnd; [reflexivity|].
  apply NoDup_cons in Hnd as [Hnin Hnd]. rewrite (IH Hnd).
  destruct (decide (k = k')) as [->|Hne].
  - destruct (dict_get k' d) as [v|] eqn:Hg; [|reflexivity].
    exfalso. apply Hnin.
    exact (list_elem_of_fmap_2 fst _ _ (dict_get_Some_elem _ _ _ Hg)).
  - destruct (dict_get k d); reflexivity.
Qed.

End odict_facts.


(** ** The request splitter *)

Lemma dict_get_elem_NoDup {K V : Type} `{EqDecision K} (k : K) (v : V)
    (d : list (K * V)) :
  NoDup d.*1 → (k, v) ∈ d → dict_get k d = Some v.
Proof.
  induction d as [|[k' v'] d IH]; simpl; intros Hnd Hin.
  - inversion Hin.
  - apply NoDup_cons in Hnd as [Hnin Hnd].
    apply elem_of_cons in Hin as [Heq|Hin].
    + inversion Heq; subst. rewrite decide_True by reflexivity. reflexivity.
    + destruct (decide (k = k')) as [->|Hne]; [|exact (IH Hnd Hin)].
      exfalso. apply Hnin.
      exact (list_elem_of_fmap_2 fst _ _ Hin).
Qed.

(** C5 (amended). The request built for an item has the item's data as its
    body, and its headers are the parent's headers read as a dictionary and
    updated with the item's headers read as a dictionary: one header per
    name; a name of the item carries the item's last value for it; any
    other name carries the parent's last value for it; the rest of the
    scope is the parent's. *)
Theorem sub_request_headers (request : Request) (fn : string)
    (hs : list header) (d : bytes) :
  let sub := sub_request request (fn, hs, d) in
  _body sub = Some d ∧
  scope_rest (scope sub) = scope_rest (scope request) ∧
  NoDup (scope_headers (scope sub)).*1 ∧
  ∀ (k v : bytes),
    (k, v) ∈ scope_headers (scope sub) ↔
    match last_value k hs with
    | Some v' => v = v'
    | None => last_value k (scope_headers (scope request)) = Some v
    end.
Proof.
  simpl. split; [reflexivity|]. split; [reflexivity|].
  assert (NoDup (dict_update (dict_of (scope_headers (scope request)))
                             (dict_of hs)).*1) as Hnd
    by apply dict_update_NoDup, dict_of_NoDup.
  split; [exact Hnd|].
  intros k v.
  assert (dict_get k (dict_update (dict_of (scope_headers (scope request)))
                                  (dict_of hs))
          = match last_value k hs with
            | Some v' => Some v'
            | None => last_value k (scope_headers (scope request))
            end) as Hget.
  { rewrite dict_get_update.
    rewrite (last_value_NoDup_get k (dict_of hs)) by apply dict_of_NoDup.
    rewrite !dict_get_of. reflexivity. }
  split.
  - intros Hin. apply (dict_get_elem_NoDup _ _ _ Hnd) in Hin.
    rewrite Hget in Hin. destruct (last_value k hs); congruence.
  - intros Hv. apply dict_get_Some_elem. rewrite Hget.
    destruct (last_value k hs); congruence.
Qed.

(** C5 as the specification states it fails when the parent repeats a
    header name: the first [accept] header of the parent is not a header of
    the sub-request, though no header of the part is named [accept]. *)
Lemma sub_request_drops_repeated_header :
  (bytes_of "accept", bytes_of "a") ∈ scope_headers (scope dup_request) ∧
  (bytes_of "accept" ∉ (@nil header).*1) ∧
  ((bytes_of "accept", bytes_of "a")
     ∉ scope_headers (scope (sub_request dup_request
                                         ("f", [], bytes_of "x")))).
Proof.
  split; [apply list_elem_of_here|]. split; [apply not_elem_of_nil|].
  intros Hin. vm_compute in Hin.
  apply elem_of_cons in Hin as [Heq|Hin]; [discriminate|inversion Hin].
Qed.


Lemma split_requests_snoc (request : Request) (form : list form_item)
    (item : form_item) :
  split_requests request (form ++ [item])
  = <[item.1.1 := sub_request request item]> (split_requests request form).
Proof. unfold split_requests. rewrite fold_left_app. reflexivity. Qed.

(** The mapping built at lines 149-158 holds, for a field name, the request
    of the last item of that name. *)
Lemma split_requests_lookup (request : Request) (form : list form_item)
    (f : string) :
  split_requests request form !! f
  = sub_request request <$> last_item f form.
Proof.
  induction form as [|item form IH] using rev_ind.
  - unfold split_requests, last_item. simpl. apply lookup_empty.
  - rewrite split_requests_snoc. unfold last_item in *.
    rewrite filter_app.
    destruct (decide (item.1.1 = f)) as [Heq|Hne].
    + rewrite Heq, lookup_insert_eq.
      rewrite (filter_cons_True (λ it : form_item, it.1.1 = f))
        by exact Heq.
      rewrite filter_nil, last_snoc. reflexivity.
    + rewrite lookup_insert_ne by exact Hne.
      rewrite (filter_cons_False (λ it : form_item, it.1.1 = f))
        by exact Hne.
      rewrite filter_nil, app_nil_r. exact IH.
Qed.

Lemma filter_absent_key {A B : Type} `{EqDecision A} (k : A)
    (l : list (A * B)) :
  k ∉ l.*1 → filter (λ kv : A * B, kv.1 = k) l = [].
Proof.
  induction l as [|[k' v'] l IH]; intros Hnin; [reflexivity|].
  rewrite filter_cons_False.
  - apply IH. intros Hin. apply Hnin, list_elem_of_further, Hin.
  - simpl. intros ->. apply Hnin, list_elem_of_here.
Qed.

(** A list with one pair per key has exactly one pair for a key it has. *)
Lemma filter_unique_key {A B : Type} `{EqDecision A} (k : A) (v : B)
    (l : list (A * B)) :
  NoDup l.*1 → (k, v) ∈ l → filter (λ kv : A * B, kv.1 = k) l = [(k, v)].
Proof.
  induction l as [|[k' v'] l IH]; intros Hnd Hin; [inversion Hin|].
  apply NoDup_cons in Hnd as [Hnin Hnd].
  apply elem_of_cons in Hin as [Heq|Hin].
  - inversion Heq; subst.
    rewrite filter_cons_True by reflexivity.
    rewrite (filter_absent_key _ _ Hnin). reflexivity.
  - rewrite filter_cons_False; [exact (IH Hnd Hin)|].
    simpl. intros ->. apply Hnin.
    exact (list_elem_of_fmap_2 fst _ _ Hin).
Qed.

Section populate_facts.
Context `{lib : MultipartLib}.

(** What a successful call returns (lines 142-159). *)
Lemma populate_Ok_inv (request : Request) (reqs : gmap string Request)
    (request' : Request) :
  populate_multipart_requests request = Ok (reqs, request') →
  ∃ form, _form request' = Some form ∧
          reqs = split_requests request form ∧
          media_type request = form_data ∧
          fst <$> parse (MultiPartParser_init
                           (scope_headers (scope request))
                           (Request_stream request))
          = Ok form.
Proof.
  unfold populate_multipart_requests, media_type. intros H.
  destruct (parse_options_header _) as [ct params]. simpl.
  destruct (decide (ct = bytes_of "multipart/form-data")) as [Hct|];
    [|discriminate].
  destruct (parse _) as [[form mp]|e].
  - inversion H; subst. exists form. simpl. auto.
  - destruct e; discriminate.
Qed.

(** C4. Field-name collision.  When the form of a request holds two items of
    one field name, with data [A] then [B], and no later item of that name,
    the mapping [populate_multipart_requests] returns has exactly one entry
    for the name: the request of the second item, whose body is [B]. *)
Theorem populate_last_write_wins (request : Request)
    (reqs : gmap string Request) (request' : Request) (f : string)
    (hA hB : list header) (A B : bytes) (pre mid post : list form_item) :
  populate_multipart_requests request = Ok (reqs, request') →
  _form request' = Some (pre ++ (f, hA, A) :: mid ++ (f, hB, B) :: post) →
  (∀ item, item ∈ post → item.1.1 ≠ f) →
  ∃ req, reqs !! f = Some req ∧
         req = sub_request request (f, hB, B) ∧
         _body req = Some B ∧
         filter (λ kv : string * Request, kv.1 = f) (map_to_list reqs)
         = [(f, req)].
Proof.
  intros Hp Hform Hpost.
  apply populate_Ok_inv in Hp as (form & Hf & -> & _ & _).
  rewrite Hf in Hform. inversion Hform; subst; clear Hform.
  assert (last_item f (pre ++ (f, hA, A) :: mid ++ (f, hB, B) :: post)
          = Some (f, hB, B)) as Hlast.
  { unfold last_item.
    change (pre ++ (f, hA, A) :: mid ++ (f, hB, B) :: post)
      with (pre ++ ((f, hA, A) :: mid) ++ [(f, hB, B)] ++ post).
    rewrite !app_assoc, filter_app.
    assert (filter (λ it : form_item, it.1.1 = f) post = []) as ->.
    { clear -Hpost. induction post as [|it post IH]; [reflexivity|].
      rewrite filter_cons_False.
      - apply IH. intros item Hin. apply Hpost, list_elem_of_further, Hin.
      - apply Hpost, list_elem_of_here. }
    rewrite app_nil_r, filter_app.
    rewrite (filter_cons_True (λ it : form_item, it.1.1 = f)) by reflexivity.
    rewrite filter_nil. apply last_snoc. }
  exists (sub_request request (f, hB, B)).
  assert (split_requests request
            (pre ++ (f, hA, A) :: mid ++ (f, hB, B) :: post) !! f
          = Some (sub_request request (f, hB, B))) as Hlook.
  { rewrite split_requests_lookup, Hlast. reflexivity. }
  split; [exact Hlook|]. split; [reflexivity|]. split; [reflexivity|].
  apply filter_unique_key.
  - apply NoDup_fst_map_to_list.
  - apply elem_of_map_to_list, Hlook.
Qed.

End populate_facts.

Lemma populate_last_write_wins_witness :
  ∃ (reqs : gmap string Request) (request' req : Request),
    @populate_multipart_requests model_lib
       (request_of example_ct [collision_body]) = Ok (reqs, request') ∧
    reqs !! "f" = Some req ∧
    req = sub_request (request_of example_ct [collision_body])
                      ("f", [], bytes_of "B") ∧
    _body req = Some (bytes_of "B") ∧
    filter (λ kv : string * Request, kv.1 = "f") (map_to_list reqs)
    = [("f", req)].
Proof.
  eexists. eexists.
  assert (@populate_multipart_requests model_lib
            (request_of example_ct [collision_body]) = Ok (?[reqs], ?[rq]))
    as Hp by (vm_compute; reflexivity).
  destruct (@populate_last_write_wins model_lib _ _ _ "f" [] []
              (bytes_of "A") (bytes_of "B") [] [] [] Hp)
    as (req & H1 & H2 & H3 & H4).
  - reflexivity.
  - intros item Hin. inversion Hin.
  - exists req. split; [exact Hp|]. repeat split; assumption.
Defined.


(** ** Errors of the parse path *)

Section errors.
Context `{lib : MultipartLib}.


(** Line 139: a media type other than [multipart/form-data] fails the
    assertion, before anything is parsed. *)
Lemma populate_asserts (request : Request) :
  media_type request ≠ form_data →
  populate_multipart_requests request = Raise AssertionError.
Proof.
  unfold populate_multipart_requests, media_type, form_data. intros Hct.
  destruct (parse_options_header _) as [ct params]. simpl in Hct.
  destruct (decide (ct = bytes_of "multipart/form-data")); [contradiction|].
  reflexivity.
Qed.

(** Lines 141-144: a [MultipartParseError] of [parse] becomes the
    [BentoMLException]. *)
Lemma populate_wraps (request : Request) :
  media_type request = form_data →
  parse (MultiPartParser_init (scope_headers (scope request))
                              (Request_stream request))
  = Raise MultipartParseError →
  populate_multipart_requests request = Raise invalid_multipart.
Proof.
  unfold populate_multipart_requests, media_type, form_data. intros Hct Hp.
  destruct (parse_options_header _) as [ct params]. simpl in Hct.
  destruct (decide (ct = bytes_of "multipart/form-data")); [|contradiction].
  rewrite Hp. reflexivity.
Qed.

(** Any other exception of [parse] leaves the call as it is. *)
Lemma populate_propagates (request : Request) (e : exn) :
  media_type request = form_data →
  parse (MultiPartParser_init (scope_headers (scope request))
                              (Request_stream request))
  = Raise e →
  e ≠ MultipartParseError →
  populate_multipart_requests request = Raise e.
Proof.
  unfold populate_multipart_requests, media_type, form_data.
  intros Hct Hp Hne.
  destruct (parse_options_header _) as [ct params]. simpl in Hct.
  destruct (decide (ct = bytes_of "multipart/form-data")); [|contradiction].
  rewrite Hp. destruct e; try reflexivity. contradiction.
Qed.

(** The error of a rejected chunk is the error of [parse]. *)
Lemma parse_write_error (hs : list header) (before : list bytes)
    (bad : bytes) (after : list bytes) (value : bytes) (p0 p : Parser)
    (calls : list callback) (st : locals) (e : exn) :
  Headers_getitem hs "Content-Type" = Ok value →
  MultipartParser (content_type_params value).2 = Ok p0 →
  write_all p0 before = Ok (p, calls) →
  handle_all (content_type_params value).1 locals_init (map invoke calls)
  = Ok st →
  write p bad = Raise e →
  parse (MultiPartParser_init hs (before ++ bad :: after)) = Raise e.
Proof.
  intros Hv Hp Hw Hh Hbad. unfold parse. simpl. rewrite Hv. simpl.
  destruct (content_type_params value) as [cs b]. simpl in *.
  rewrite Hp. simpl.
  rewrite (feed_write_error _ _ _ _ _ _ _ _ _ _ Hw Hh Hbad). reflexivity.
Qed.


(** Line 126: [options[b"name"]] on options without a name. *)
Lemma handle_missing_name (cs : string) (st : locals) (x : bytes) :
  (parse_options_header (content_disposition st)).2 !! bytes_of "name"
  = None →
  handle cs st (HEADERS_FINISHED, x) = Raise (KeyError (bytes_of "name")).
Proof.
  simpl. destruct (parse_options_header (content_disposition st)) as [ct o].
  simpl. intros ->. reflexivity.
Qed.

(** An exception of the loop over the messages is the exception of
    [parse]: the stream is not read further and the decoder is not
    closed. *)
Lemma parse_handle_error (hs : list header) (chunks : list bytes)
    (value : bytes) (p0 p : Parser) (calls : list callback) (e : exn) :
  Headers_getitem hs "Content-Type" = Ok value →
  MultipartParser (content_type_params value).2 = Ok p0 →
  write_all p0 chunks = Ok (p, calls) →
  handle_all (content_type_params value).1 locals_init (map invoke calls)
  = Raise e →
  parse (MultiPartParser_init hs chunks) = Raise e.
Proof.
  intros Hv Hp Hw Hh. unfold parse. simpl. rewrite Hv. simpl.
  destruct (content_type_params value) as [cs b]. simpl in *.
  rewrite Hp. simpl. rewrite (feed_write_all _ _ _ _ _ _ Hw), Hh.
  reflexivity.
Qed.

(** With any decoder: when the messages of a stream it accepts end the loop
    with the [KeyError] of line 126, the caller of
    [populate_multipart_requests] gets that [KeyError]. *)
Lemma populate_missing_name (request : Request) (value : bytes)
    (p0 p : Parser) (calls : list callback) :
  media_type request = form_data →
  Headers_getitem (scope_headers (scope request)) "Content-Type" = Ok value →
  MultipartParser (content_type_params value).2 = Ok p0 →
  write_all p0 (Request_stream request) = Ok (p, calls) →
  handle_all (content_type_params value).1 locals_init (map invoke calls)
  = Raise (KeyError (bytes_of "name")) →
  populate_multipart_requests request = Raise (KeyError (bytes_of "name")).
Proof.
  intros Hct Hv Hp Hw Hh.
  apply populate_propagates; [exact Hct| |discriminate].
  eapply parse_handle_error; eauto.
Qed.

(** C1 (amended). On the parse path a media type other than
    [multipart/form-data] fails the assertion of line 139 with
    [AssertionError]; and when the decoding raises [MultipartParseError]
    (framing the decoder rejects, or a stream it refuses to close) the
    caller observes the one exception
    [BentoMLException("Invalid multipart requests")].  Either way the call
    raises, so it returns no mapping of sub-requests at all. *)
Theorem populate_error_kinds (request : Request) :
  (media_type request ≠ form_data →
   populate_multipart_requests request = Raise AssertionError) ∧
  (media_type request = form_data →
   parse (MultiPartParser_init (scope_headers (scope request))
                               (Request_stream request))
   = Raise MultipartParseError →
   populate_multipart_requests request = Raise invalid_multipart).
Proof.
  split; [apply populate_asserts | apply populate_wraps].
Qed.



(** The decoder is built from the resolver's boundary, and what the
    resolver raises is what the call raises. *)
Lemma populate_resolver_error (request : Request) (e : exn) :
  boundary_resolver (scope_headers (scope request)) = Raise e →
  populate_multipart_requests request = Raise e.
Proof.
  unfold boundary_resolver, populate_multipart_requests, parse.
  destruct (parse_options_header _) as [ct params].
  destruct (decide (ct = bytes_of "multipart/form-data")); [|congruence].
  simpl. unfold Headers_getitem.
  destruct (dict_get _ _) as [value|]; simpl; [discriminate|].
  intros [= <-]. reflexivity.
Qed.


End errors.

Lemma populate_error_kinds_witness :
  @populate_multipart_requests model_lib
     (request_of "text/plain" [example_body]) = Raise AssertionError ∧
  @populate_multipart_requests model_lib
     (request_of example_ct [malformed_body]) = Raise invalid_multipart.
Proof.
  split.
  - apply (proj1 (@populate_error_kinds model_lib _)).
    vm_compute. discriminate.
  - apply (proj2 (@populate_error_kinds model_lib _));
      vm_compute; reflexivity.
Defined.

(** C1 as the specification states it fails for a request that is not
    multipart: the caller observes [AssertionError], not the multipart
    exception. *)
Lemma populate_assertion_error_escapes :
  @populate_multipart_requests model_lib
     (request_of "text/plain" [example_body]) = Raise AssertionError ∧
  AssertionError ≠ invalid_multipart.
Proof. split; [vm_compute; reflexivity | discriminate]. Qed.



(** C2. A part whose content-disposition has no [name]: the [KeyError] of
    line 126 is not a [MultipartParseError], so it passes the [except]
    clause of line 143 and reaches the caller as it is. *)
Theorem missing_name_raises_KeyError :
  @populate_multipart_requests model_lib
     (request_of example_ct [no_name_body])
  = Raise (KeyError (bytes_of "name")).
Proof. vm_compute. reflexivity. Qed.

(** [populate_multipart_requests] is the resolver followed by the decoding
    of the stream with the charset and the boundary it yields. *)
Lemma populate_factors `{lib : MultipartLib} (request : Request) :
  populate_multipart_requests request
  = match boundary_resolver (scope_headers (scope request)) with
    | Raise e => Raise e
    | Ok (cs, b) =>
        match (MultipartParser b ≫= λ parser,
               feed cs parser [] locals_init (Request_stream request) ≫= λ r,
               finalize r.1.1 ≫= λ _, Ok (form_of r.2)) with
        | Raise MultipartParseError => Raise invalid_multipart
        | Raise e => Raise e
        | Ok form =>
            Ok (split_requests request form,
                {| scope := scope request;
                   receive := match _body request with
                              | Some _ => receive request
                              | None => []
                              end;
                   _form := Some form; _body := _body request |})
        end
    end.
Proof.
  unfold boundary_resolver, populate_multipart_requests, parse.
  destruct (parse_options_header _) as [ct params].
  destruct (decide (ct = bytes_of "multipart/form-data")); [|reflexivity].
  simpl. unfold Headers_getitem.
  destruct (dict_get _ _) as [value|]; simpl; [|reflexivity].
  destruct (content_type_params value) as [cs b].
  destruct (MultipartParser b) as [p0|e0]; simpl; [|reflexivity].
  destruct (feed cs p0 [] locals_init (Request_stream request))
    as [[[p q] st]|e1]; simpl; [|reflexivity].
  destruct (finalize p) as [fin|e2]; reflexivity.
Qed.

(** The boundary the resolver yields, [None] included, is the argument of
    [multipart.MultipartParser], and an exception of that constructor
    reaches the caller under the rule of lines 141-144. *)
Lemma populate_constructor_error `{lib : MultipartLib} (request : Request)
    (cs : string) (b : option bytes) (e : exn) :
  boundary_resolver (scope_headers (scope request)) = Ok (cs, b) →
  MultipartParser b = Raise e →
  populate_multipart_requests request
  = Raise (if decide (e = MultipartParseError) then invalid_multipart else e).
Proof.
  unfold boundary_resolver, populate_multipart_requests, parse.
  destruct (parse_options_header _) as [ct params].
  destruct (decide (ct = bytes_of "multipart/form-data")); [|discriminate].
  simpl.
  destruct (Headers_getitem _ _) as [value|err]; simpl; [|discriminate].
  intros [= Hr] Hc. rewrite Hr, Hc. simpl.
  destruct e; reflexivity.
Qed.


(** ** The merge path *)

Lemma BytesIO_write_at_end (f : BytesIO) (x : bytes) :
  pos f = length (buf f) →
  BytesIO_write f x
  = {| buf := buf f ++ x; pos := length (buf f ++ x) |}.
Proof.
  intros Hp. unfold BytesIO_write. rewrite Hp.
  rewrite take_ge by lia. rewrite drop_ge by lia.
  rewrite Nat.sub_diag. simpl. rewrite app_nil_r, length_app. reflexivity.
Qed.

(** After the writes of lines 164-165 the buffer is the concatenation of
    what was written and the position is its end. *)
Lemma fold_write_at_end (xs : list bytes) :
  ∀ f, pos f = length (buf f) →
       fold_left BytesIO_write xs f
       = {| buf := buf f ++ concat xs;
            pos := length (buf f ++ concat xs) |}.
Proof.
  induction xs as [|x xs IH]; intros f Hp; simpl.
  - rewrite app_nil_r, <- Hp. destruct f; reflexivity.
  - rewrite (BytesIO_write_at_end f x Hp). rewrite IH by reflexivity.
    simpl. rewrite <- app_assoc. reflexivity.
Qed.

Lemma concat_buffer (entropy : bytes) (responses : list (string * Response)) :
  body_iterator (concat_to_multipart_responses entropy responses)
  = {| buf := concat (map (λ r : string * Response, body r.2) responses);
       pos :=
         length (concat (map (λ r : string * Response, body r.2)
                             responses)) |}.
Proof.
  unfold concat_to_multipart_responses. simpl.
  rewrite fold_write_at_end by reflexivity. reflexivity.
Qed.

(** Iterating a buffer yields all of it when read from its start. *)
Lemma concat_lines_of (x : bytes) : concat (lines_of x) = x.
Proof.
  induction x as [|c x IH]; simpl; [reflexivity|].
  destruct (decide (c = newline)).
  - simpl. rewrite IH. reflexivity.
  - destruct (lines_of x) as [|l ls]; simpl in *.
    + rewrite <- IH. reflexivity.
    + rewrite <- IH. reflexivity.
Qed.

(** The buffer reaches [StreamingResponse] with its position at the end,
    so iterating it yields nothing: whatever the responses, the body that
    is streamed is empty. *)
Lemma streamed_body_empty (entropy : bytes)
    (responses : list (string * Response)) :
  streamed_body (concat_to_multipart_responses entropy responses) = [].
Proof.
  unfold streamed_body, BytesIO_iter. rewrite concat_buffer. simpl.
  rewrite drop_all. reflexivity.
Qed.

Lemma hex_digit_lower (n : N) :
  (n < 16)%N → is_lower_hex (hex_digit n) = true.
Proof.
  intros Hn.
  assert (N.to_nat n < 16) as Hlt by lia.
  unfold hex_digit. destruct (N.to_nat n) as [|k]; [reflexivity|].
  do 15 (destruct k as [|k]; [reflexivity|]). lia.
Qed.

Lemma hexlify_length (x : bytes) : length (hexlify x) = 2 * length x.
Proof.
  unfold hexlify. induction x as [|c x IH]; simpl; [reflexivity|].
  rewrite IH. lia.
Qed.

Lemma hexlify_lower_hex (x : bytes) :
  Forall (λ c, is_lower_hex c = true) (hexlify x).
Proof.
  unfold hexlify. induction x as [|c x IH]; simpl; [constructor|].
  assert (N_of_ascii c < 256)%N as Hc by apply N_ascii_bounded.
  constructor; [|constructor; [|exact IH]].
  - apply hex_digit_lower. apply N.Div0.div_lt_upper_bound. lia.
  - apply hex_digit_lower. apply N.mod_lt. lia.
Qed.

(** The header of line 167: [multipart/form-data] with a boundary of 32
    lower-case hexadecimal digits when [os.urandom(16)] gives 16 bytes. *)
Lemma concat_content_type (entropy : bytes)
    (responses : list (string * Response)) :
  length entropy = 16 →
  ∃ boundary : bytes,
    init_headers (concat_to_multipart_responses entropy responses)
    = [("content-type",
        "multipart/form-data; boundary=" +:+ string_of_list_ascii boundary)] ∧
    length boundary = 32 ∧
    Forall (λ c, is_lower_hex c = true) boundary.
Proof.
  intros He. exists (hexlify entropy). split; [reflexivity|]. split.
  - rewrite hexlify_length, He. reflexivity.
  - apply hexlify_lower_hex.
Qed.

(** C6. The merge example of section 8, responses with bodies [abc] and
    [def]: the buffer holds [abcdef] and the header announces a boundary of
    32 hexadecimal digits, but the body that is streamed is empty, since the
    buffer is handed over with its position at the end. *)
Theorem merged_body_is_empty :
  let r := concat_to_multipart_responses (replicate 16 zero) abc_def in
  streamed_body r = [] ∧
  BytesIO_getvalue (body_iterator r) = bytes_of "abcdef" ∧
  pos (body_iterator r) = 6 ∧
  init_headers r
  = [("content-type",
      "multipart/form-data; boundary=00000000000000000000000000000000")].
Proof. vm_compute. repeat split. Qed.


(** * Further properties of the module *)

(** ** The items of whole parts *)

Section assembler.
Context `{lib : MultipartLib}.

Lemma handle_header (cs : string) (st : locals) (h : header)
    (rest : list message) :
  header_field st = [] → header_value st = [] →
  handle_all cs st (header_messages h ++ rest)
  = handle_all cs (after_header st h) rest.
Proof.
  intros Hf Hv. destruct st; simpl in *; subst.
  unfold after_header; simpl. destruct (decide _); reflexivity.
Qed.

Lemma after_header_accumulators (st : locals) (h : header) :
  header_field (after_header st h) = [] ∧
  header_value (after_header st h) = [].
Proof. unfold after_header. destruct (decide _); split; reflexivity. Qed.

Lemma handle_headers (cs : string) (hs : list header) (rest : list message) :
  ∀ st, header_field st = [] → header_value st = [] →
        handle_all cs st (flat_map header_messages hs ++ rest)
        = handle_all cs (after_headers st hs) rest.
Proof.
  induction hs as [|h hs IH]; intros st Hf Hv; [reflexivity|].
  change (flat_map header_messages (h :: hs))
    with (header_messages h ++ flat_map header_messages hs).
  rewrite <- app_assoc, handle_header by assumption.
  destruct (after_header_accumulators st h) as [Hf' Hv'].
  apply IH; assumption.
Qed.

Lemma after_headers_accumulators (hs : list header) :
  ∀ st, header_field st = [] → header_value st = [] →
        header_field (after_headers st hs) = [] ∧
        header_value (after_headers st hs) = [].
Proof.
  induction hs as [|h hs IH]; intros st Hf Hv; [auto|].
  destruct (after_header_accumulators st h) as [Hf' Hv'].
  apply (IH _ Hf' Hv').
Qed.

(** What the headers of a part leave in the state: the fields the headers
    do not touch, the last content-disposition value, and the other headers
    appended, in order, to the list [headers] is bound to. *)
Lemma after_headers_state (hs : list header) :
  ∀ st,
    let st' := after_headers st hs in
    field_name st' = field_name st ∧ data st' = data st ∧
    items st' = items st ∧ headers st' = headers st ∧
    content_disposition st'
    = match last_value (bytes_of "content-disposition") (lowered hs) with
      | Some v => Some v
      | None => content_disposition st
      end ∧
    ∀ i, heap st' !! i
         = if decide (i = headers st)
           then (λ l, l ++ filter not_content_disposition (lowered hs))
                <$> heap st !! i
           else heap st !! i.
Proof.
  induction hs as [|h hs IH]; intros st; simpl.
  - repeat split; try reflexivity. intros i.
    destruct (decide (i = headers st)); [|reflexivity].
    destruct (heap st !! i); simpl; [rewrite app_nil_r|]; reflexivity.
  - destruct (IH (after_header st h)) as (Hn & Hd & Hi & Hh & Hc & Hp).
    fold (after_headers (after_header st h) hs) in *.
    assert (field_name (after_header st h) = field_name st ∧
            data (after_header st h) = data st ∧
            items (after_header st h) = items st ∧
            headers (after_header st h) = headers st) as (E1 & E2 & E3 & E4).
    { unfold after_header. destruct (decide _); destruct st; auto. }
    rewrite Hn, Hd, Hi, Hh, E1, E2, E3, E4.
    repeat split; try reflexivity.
    + rewrite Hc. destruct (last_value _ (lowered hs)); [reflexivity|].
      unfold after_header.
      destruct (decide (bytes_lower h.1 = bytes_of "content-disposition"))
        as [Heq|Hne]; simpl.
      * rewrite decide_True by (symmetry; exact Heq). destruct st; reflexivity.
      * rewrite decide_False by (intros E; apply Hne; symmetry; exact E).
        destruct st; reflexivity.
    + intros i. rewrite Hp, E4.
      destruct (decide (i = headers st)) as [->|Hne]; unfold after_header;
        destruct (decide (bytes_lower h.1 = bytes_of "content-disposition"))
          as [Heq|Hneq].
      * rewrite filter_cons_False
          by (unfold not_content_disposition; simpl; intros E; exact (E Heq)).
        destruct st; reflexivity.
      * rewrite filter_cons_True by exact Hneq.
        destruct st; simpl. rewrite list_lookup_alter_eq.
        destruct (heap0 !! headers0); simpl; [|reflexivity].
        rewrite <- app_assoc. reflexivity.
      * destruct st; reflexivity.
      * destruct st; simpl in *. rewrite list_lookup_alter_ne by congruence.
        reflexivity.
Qed.

Lemma handle_part_headers (cs : string) (st : locals) (hs : list header)
    (d : bytes) (rest : list message) :
  header_field st = [] → header_value st = [] →
  handle_all cs st (part_messages (hs, d) ++ rest)
  = handle_all cs
      (after_headers
         (new_headers (set_data [] (set_content_disposition None st))) hs)
      ([(HEADERS_FINISHED, []); (PART_DATA, d); (PART_END, [])] ++ rest).
Proof.
  intros Hf Hv. unfold part_messages. simpl fst. simpl snd.
  rewrite <- app_comm_cons, handle_all_cons. simpl handle. simpl mbind.
  rewrite <- app_assoc. apply handle_headers; destruct st; assumption.
Qed.

(** One whole part: the loop appends the item of the part, or stops with
    its [KeyError]. *)
Lemma handle_part (cs : string) (st : locals) (p : list header * bytes)
    (rest : list message) :
  between_parts st →
  match part_item cs p with
  | Raise e => handle_all cs st (part_messages p ++ rest) = Raise e
  | Ok item =>
      ∃ st', handle_all cs st (part_messages p ++ rest)
             = handle_all cs st' rest ∧
             between_parts st' ∧
             form_of st' = form_of st ++ [item]
  end.
Proof.
  intros (Hf & Hv & Hrefs). destruct p as [hs d].
  rewrite (handle_part_headers cs st hs d rest Hf Hv).
  set (st1 := new_headers (set_data [] (set_content_disposition None st))).
  assert (header_field st1 = [] ∧ header_value st1 = []) as [Hf1 Hv1]
    by (destruct st; simpl in *; auto).
  destruct (after_headers_state hs st1) as (Hn & Hd & Hi & Hh & Hc & Hp).
  destruct (after_headers_accumulators hs st1 Hf1 Hv1) as [Hfa Hva].
  assert (length (heap st1) = S (length (heap st))) as Hlen1
    by (destruct st; simpl; rewrite length_app; simpl; lia).
  assert (headers st1 = length (heap st)) as Hhd1
    by (destruct st; reflexivity).
  assert (items st1 = items st) as Hit1 by (destruct st; reflexivity).
  assert (content_disposition st1 = None) as Hcd1
    by (destruct st; reflexivity).
  assert (data st1 = []) as Hdata1 by (destruct st; reflexivity).
  assert (∀ i, i < length (heap st) → heap st1 !! i = heap st !! i) as Hold.
  { intros i Hi'. destruct st; simpl in *. apply lookup_app_l. exact Hi'. }
  assert (heap st1 !! length (heap st) = Some []) as Hnew.
  { destruct st; simpl. rewrite lookup_app_r by lia.
    rewrite Nat.sub_diag. reflexivity. }
  clearbody st1.
  set (st2 := after_headers st1 hs) in *.
  assert (length (heap st2) = length (heap st1)) as Hlen2.
  { apply Nat.le_antisymm.
    - destruct (decide (length (heap st2) <= length (heap st1)));
        [assumption|exfalso].
      assert (is_Some (heap st2 !! length (heap st1))) as [l Hl]
        by (apply lookup_lt_is_Some; lia).
      rewrite Hp in Hl. rewrite decide_False in Hl by lia.
      apply lookup_lt_Some in Hl. lia.
    - destruct (decide (length (heap st1) <= length (heap st2)));
        [assumption|exfalso].
      assert (is_Some (heap st1 !! length (heap st2))) as [l Hl]
        by (apply lookup_lt_is_Some; lia).
      assert (is_Some (heap st2 !! length (heap st2))) as [l' Hl'].
      { rewrite Hp. destruct (decide _); rewrite Hl; simpl; eauto. }
      apply lookup_lt_Some in Hl'. lia. }
  rewrite Hcd1 in Hc.
  assert (content_disposition st2
          = last_value (bytes_of "content-disposition") (lowered hs)) as Hcd.
  { rewrite Hc. destruct (last_value _ _); reflexivity. }
  clearbody st2.
  unfold part_item. simpl fst. simpl snd.
  simpl app. rewrite handle_all_cons. simpl handle. rewrite Hcd.
  destruct (parse_options_header _) as [ct options].
  destruct (options !! _) as [v|]; [|reflexivity].
  simpl.
  eexists. split; [reflexivity|].
  match goal with |- between_parts ?s ∧ _ => set (st3 := s) end.
  assert (header_field st3 = header_field st2 ∧
          header_value st3 = header_value st2 ∧
          heap st3 = heap st2 ∧
          items st3
          = items st2 ++ [(_user_safe_decode v cs, headers st2,
                           data st2 ++ d)])
    as (E1 & E2 & E3 & E4) by (destruct st2; auto).
  clearbody st3.
  assert (data st1 = []) as Hd1 by (rewrite Hdata1; reflexivity).
  rewrite Hd, Hd1, Hh, Hhd1, Hi, Hit1 in E4. simpl in E4.
  split.
  - unfold between_parts. rewrite E1, E2, E3, E4, Hlen2, Hlen1.
    split; [exact Hfa|]. split; [exact Hva|].
    apply Forall_app. split.
    + eapply Forall_impl; [exact Hrefs|]. simpl. intros it Hlt. lia.
    + constructor; [simpl; lia | constructor].
  - unfold form_of. rewrite E3, E4, map_app. f_equal.
    + apply map_ext_in. intros [[fn r] dd] Hin. simpl.
      rewrite Forall_forall in Hrefs.
      apply list_elem_of_In in Hin. specialize (Hrefs _ Hin). simpl in Hrefs.
      unfold deref. rewrite Hp. rewrite decide_False by lia.
      rewrite Hold by exact Hrefs. reflexivity.
    + simpl. unfold deref. rewrite Hp. rewrite decide_True by lia.
      rewrite Hnew. reflexivity.
Qed.

(** The loop over the messages of whole parts returns their items, in the
    order of the parts, after the items it already holds. *)
Lemma handle_parts (cs : string) (parts : list (list header * bytes)) :
  ∀ st, between_parts st →
        form_of <$> handle_all cs st (form_messages parts)
        = (λ items, form_of st ++ items) <$> form_items cs parts.
Proof.
  induction parts as [|p parts IH]; intros st Hst.
  - simpl. rewrite app_nil_r. reflexivity.
  - change (form_messages (p :: parts))
      with ((part_messages p ++ flat_map part_messages parts) ++ [(END, [])]).
    rewrite <- app_assoc.
    change (flat_map part_messages parts ++ [(END, [])])
      with (form_messages parts).
    pose proof (handle_part cs st p (form_messages parts) Hst) as Hp.
    simpl form_items.
    destruct (part_item cs p) as [item|e].
    + destruct Hp as (st' & -> & Hst' & Hform).
      rewrite (IH st' Hst'), Hform. simpl.
      destruct (form_items cs parts) as [items|e]; simpl; [|reflexivity].
      rewrite <- app_assoc. reflexivity.
    + rewrite Hp. reflexivity.
Qed.

(** When the loop over the stream completes, the decoder has accepted
    every chunk and the state is the one the messages of all the writes
    lead to. *)
Lemma feed_Ok_handle_all (cs : string) (chunks : list bytes) :
  ∀ (p p' : Parser) (q' : list message) (st st' : locals),
    feed cs p [] st chunks = Ok (p', q', st') →
    q' = [] ∧
    ∃ calls, write_all p chunks = Ok (p', calls) ∧
             handle_all cs st (map invoke calls) = Ok st'.
Proof.
  induction chunks as [|c rest IH]; intros p p' q' st st' Hf.
  - inversion Hf; subst. split; [reflexivity|]. exists []. auto.
  - simpl in Hf. apply bind_Ok_inv in Hf as ([p1 calls1] & Hw & Hf).
    apply bind_Ok_inv in Hf as (st1 & Hh & Hf).
    destruct (IH _ _ _ _ _ Hf) as (Hq & calls2 & Hw2 & Hh2).
    split; [exact Hq|]. exists (calls1 ++ calls2). split.
    + simpl. rewrite Hw. simpl. rewrite Hw2. reflexivity.
    + rewrite map_app, handle_all_app. simpl in Hh. rewrite Hh. exact Hh2.
Qed.

(** What a successful call of [parse] went through. *)
Lemma parse_Ok_inv (hs : list header) (chunks : list bytes)
    (form : list form_item) (self' : MultiPartParser) :
  parse (MultiPartParser_init hs chunks) = Ok (form, self') →
  ∃ value p0 p calls st fin,
    Headers_getitem hs "Content-Type" = Ok value ∧
    MultipartParser (content_type_params value).2 = Ok p0 ∧
    write_all p0 chunks = Ok (p, calls) ∧
    handle_all (content_type_params value).1 locals_init (map invoke calls)
    = Ok st ∧
    finalize p = Ok fin ∧
    form = form_of st ∧
    self' = {| mp_headers := hs; mp_stream := [];
               messages := map invoke fin |}.
Proof.
  unfold parse. simpl. intros H.
  apply bind_Ok_inv in H as (value & Hv & H).
  destruct (content_type_params value) as [cs b] eqn:Hctp.
  apply bind_Ok_inv in H as (p0 & Hp & H).
  apply bind_Ok_inv in H as ([[p q] st] & Hfeed & H).
  apply bind_Ok_inv in H as (fin & Hfin & H).
  inversion H; subst; clear H.
  destruct (feed_Ok_handle_all _ _ _ _ _ _ _ Hfeed) as (-> & calls & Hw & Hh).
  exists value, p0, p, calls, st, fin. rewrite Hctp. simpl.
  repeat split; assumption.
Qed.

Lemma handle_items_length (cs : string) (st st' : locals) (m : message) :
  handle cs st m = Ok st' →
  length (items st') = length (items st) + part_ends [m].
Proof.
  destruct m as [t x]. unfold part_ends.
  destruct t; cbn; intros H;
    try (destruct (parse_options_header _) as [ct options];
         destruct (options !! _); [|discriminate]);
    inversion H; subst; clear H;
    repeat (destruct (decide _)); try discriminate; try congruence;
    try destruct st; cbn; rewrite ?length_app; cbn; lia.
Qed.

Lemma handle_all_items_length (cs : string) (ms : list message) :
  ∀ st st', handle_all cs st ms = Ok st' →
            length (items st') = length (items st) + part_ends ms.
Proof.
  induction ms as [|m ms IH]; intros st st' H.
  - inversion H; subst. unfold part_ends. simpl. lia.
  - rewrite handle_all_cons in H. apply bind_Ok_inv in H as (st1 & H1 & H2).
    rewrite (IH _ _ H2), (handle_items_length _ _ _ _ H1).
    unfold part_ends. change (m :: ms) with ([m] ++ ms).
    rewrite filter_app, length_app. lia.
Qed.

End assembler.


Section parse_results.
Context `{lib : MultipartLib}.

(** X1. For a stream the decoder accepts and reports as the messages of
    whole parts, up to where fragments are cut, [parse] returns one item
    per part, in the order of the parts: the field name decoded from the
    [name] of the part's last content-disposition header, the other
    headers in order with lower-cased names, and the data; it raises
    [KeyError] at the first part without a name. *)
Theorem parse_whole_parts (hs : list header) (chunks : list bytes)
    (value : bytes) (p0 p : Parser) (calls fin : list callback)
    (parts : list (list header * bytes)) :
  Headers_getitem hs "Content-Type" = Ok value →
  MultipartParser (content_type_params value).2 = Ok p0 →
  write_all p0 chunks = Ok (p, calls) →
  finalize p = Ok fin →
  spell (map invoke calls) = spell (form_messages parts) →
  fst <$> parse (MultiPartParser_init hs chunks)
  = form_items (content_type_params value).1 parts.
Proof.
  intros Hv Hp Hw Hf Hs.
  rewrite (parse_write_all _ _ _ _ _ _ _ Hv Hp Hw Hf).
  rewrite (handle_all_spell_eq _ _ _ _ Hs).
  rewrite handle_parts.
  - destruct (form_items _ parts); reflexivity.
  - repeat split; constructor.
Qed.

(** X2. When [parse] returns, the queue [self.messages] of the parser
    object holds exactly the messages of the callbacks [parser.finalize()]
    invoked, unhandled, and the stream is exhausted. *)
Theorem parse_leaves_finalize_messages (hs : list header)
    (chunks : list bytes) (form : list form_item)
    (self' : MultiPartParser) :
  parse (MultiPartParser_init hs chunks) = Ok (form, self') →
  ∃ (p0 p : Parser) (calls fin : list callback),
    write_all p0 chunks = Ok (p, calls) ∧
    finalize p = Ok fin ∧
    messages self' = map invoke fin ∧
    mp_stream self' = [].
Proof.
  intros H. apply parse_Ok_inv in H
    as (value & p0 & p & calls & st & fin & _ & _ & Hw & _ & Hf & _ & ->).
  exists p0, p, calls, fin. auto.
Qed.

(** X3. [parse] returns as many items as [on_part_end] was called: one per
    [PART_END] message, whatever the other messages are. *)
Theorem parse_item_count (hs : list header) (chunks : list bytes)
    (form : list form_item) (self' : MultiPartParser) :
  parse (MultiPartParser_init hs chunks) = Ok (form, self') →
  ∃ (p0 p : Parser) (calls : list callback),
    write_all p0 chunks = Ok (p, calls) ∧
    length form = part_ends (map invoke calls).
Proof.
  intros H. apply parse_Ok_inv in H
    as (value & p0 & p & calls & st & fin & _ & _ & Hw & Hh & _ & -> & _).
  exists p0, p, calls. split; [exact Hw|].
  unfold form_of. rewrite length_map.
  rewrite (handle_all_items_length _ _ _ _ Hh). reflexivity.
Qed.

End parse_results.

Lemma parse_whole_parts_witness :
  fst <$> @parse model_lib
            (MultiPartParser_init example_headers [bytes_of example_body])
  = @form_items model_lib "utf-8" example_parts.
Proof.
  eapply (@parse_whole_parts model_lib example_headers
            [bytes_of example_body] (bytes_of example_ct));
    vm_compute; reflexivity.
Defined.

Lemma parse_leaves_finalize_messages_witness :
  ∃ (p0 p : @Parser lazy_lib) (calls fin : list callback),
    @write_all lazy_lib p0 [bytes_of truncated_body] = Ok (p, calls) ∧
    @finalize lazy_lib p = Ok fin ∧
    [(PART_END, []); (END, [])] = map invoke fin ∧
    @nil bytes = [].
Proof.
  exact (@parse_leaves_finalize_messages lazy_lib _ _ _ _
           part_end_at_finalize_is_lost).
Defined.

Lemma parse_item_count_witness :
  ∃ (p0 p : @Parser model_lib) (calls : list callback),
    @write_all model_lib p0 [bytes_of collision_body] = Ok (p, calls) ∧
    2 = part_ends (map invoke calls).
Proof.
  eapply (@parse_item_count model_lib example_headers
            [bytes_of collision_body]
            [("f", [], bytes_of "A"); ("f", [], bytes_of "B")]).
  vm_compute. reflexivity.
Defined.


(** ** The mapping of sub-requests *)

Lemma elem_of_map_image {A K : Type} (f : A → K) (z : A) (l : list A) :
  z ∈ l → f z ∈ map f l.
Proof. intros Hz. apply list_elem_of_In, in_map, list_elem_of_In, Hz. Qed.

Lemma filter_absent_image {A K : Type} `{EqDecision K} (f : A → K) (k : K)
    (l : list A) :
  k ∉ map f l → filter (λ y, f y = k) l = [].
Proof.
  induction l as [|z l IH]; intros Hnin; [reflexivity|].
  rewrite filter_cons_False.
  - apply IH. intros Hin. apply Hnin. simpl. apply list_elem_of_further, Hin.
  - intros E. apply Hnin. simpl. rewrite E. apply list_elem_of_here.
Qed.

Lemma filter_unique_image {A K : Type} `{EqDecision K} (f : A → K) (x : A)
    (l : list A) :
  NoDup (map f l) → x ∈ l → filter (λ y, f y = f x) l = [x].
Proof.
  induction l as [|y l IH]; intros Hnd Hin; [inversion Hin|].
  simpl in Hnd. apply NoDup_cons in Hnd as [Hnin Hnd].
  apply elem_of_cons in Hin as [->|Hin].
  - rewrite filter_cons_True by reflexivity.
    rewrite (filter_absent_image f (f y) l Hnin). reflexivity.
  - rewrite filter_cons_False.
    + apply IH; assumption.
    + intros E. apply Hnin. rewrite E. apply elem_of_map_image, Hin.
Qed.

Lemma split_requests_size (request : Request) (form : list form_item) :
  NoDup (field_names form) →
  size (split_requests request form) = length form.
Proof.
  induction form as [|item form IH] using rev_ind; intros Hnd.
  - reflexivity.
  - unfold field_names in Hnd. rewrite map_app in Hnd.
    apply NoDup_app in Hnd as (Hnd & Hdis & _).
    rewrite split_requests_snoc, length_app. simpl.
    rewrite map_size_insert_None; [rewrite (IH Hnd); lia|].
    rewrite split_requests_lookup. unfold last_item.
    rewrite (filter_absent_image (λ it : form_item, it.1.1) item.1.1 form);
      [reflexivity|].
    intros Hin. apply (Hdis _ Hin). simpl. apply list_elem_of_here.
Qed.

Lemma dict_set_fresh {K V : Type} `{EqDecision K} (k : K) (v : V)
    (d : list (K * V)) :
  k ∉ d.*1 → dict_set k v d = d ++ [(k, v)].
Proof.
  induction d as [|[k' v'] d IH]; intros Hnin; [reflexivity|].
  simpl. rewrite decide_False.
  - f_equal. apply IH. intros Hin. apply Hnin, list_elem_of_further, Hin.
  - intros ->. apply Hnin, list_elem_of_here.
Qed.

(** Updating a dictionary with pairs of new, distinct keys appends them. *)
Lemma dict_update_fresh {K V : Type} `{EqDecision K} (l : list (K * V)) :
  ∀ d : list (K * V), NoDup (d.*1 ++ l.*1) → dict_update d l = d ++ l.
Proof.
  induction l as [|[k v] l IH]; intros d Hnd; simpl.
  - rewrite app_nil_r. reflexivity.
  - change (dict_update (dict_set k v d) l = d ++ (k, v) :: l).
    assert (k ∉ d.*1) as Hk.
    { intros Hin. apply NoDup_app in Hnd as (_ & Hdis & _).
      apply (Hdis k Hin). simpl. apply list_elem_of_here. }
    rewrite (dict_set_fresh _ _ _ Hk), IH.
    + rewrite <- app_assoc. reflexivity.
    + rewrite fmap_app. simpl. rewrite <- app_assoc. exact Hnd.
Qed.

Section splitter.
Context `{lib : MultipartLib}.

(** X4. On success [request._form] holds the items [parse] returned, and
    the mapping sends a field name to the request built from the last item
    of that name; it has no entry for a name no item has. *)
Theorem populate_lookup (request : Request) (reqs : gmap string Request)
    (request' : Request) :
  populate_multipart_requests request = Ok (reqs, request') →
  ∃ form,
    _form request' = Some form ∧
    fst <$> parse (MultiPartParser_init (scope_headers (scope request))
                                        (Request_stream request))
    = Ok form ∧
    ∀ f, reqs !! f = sub_request request <$> last_item f form.
Proof.
  intros H. apply populate_Ok_inv in H as (form & Hf & -> & _ & Hp).
  exists form. split; [exact Hf|]. split; [exact Hp|].
  intros f. apply split_requests_lookup.
Qed.

(** X5. When the field names of the parts are distinct, the mapping has as
    many sub-requests as the form has items, and each item is found under
    its field name. *)
Theorem populate_distinct_names (request : Request)
    (reqs : gmap string Request) (request' : Request)
    (form : list form_item) :
  populate_multipart_requests request = Ok (reqs, request') →
  _form request' = Some form →
  NoDup (field_names form) →
  size reqs = length form ∧
  ∀ item, item ∈ form →
          reqs !! item.1.1 = Some (sub_request request item).
Proof.
  intros H Hform Hnd.
  apply populate_Ok_inv in H as (form' & Hf & -> & _ & _).
  rewrite Hf in Hform. inversion Hform; subst; clear Hform.
  split; [apply split_requests_size, Hnd|].
  intros item Hin. rewrite split_requests_lookup. unfold last_item.
  rewrite (filter_unique_image (λ it : form_item, it.1.1) item form Hnd Hin).
  reflexivity.
Qed.

(** X6. The [except] clause of line 143 names [MultipartParseError] only:
    any other exception raised while parsing reaches the caller of
    [populate_multipart_requests] unchanged. *)
Theorem populate_other_errors_unchanged (request : Request) (e : exn) :
  media_type request = form_data →
  parse (MultiPartParser_init (scope_headers (scope request))
                              (Request_stream request))
  = Raise e →
  e ≠ MultipartParseError →
  populate_multipart_requests request = Raise e.
Proof. apply populate_propagates. Qed.

(** X7. A chunk the decoder rejects with [MultipartParseError] fails the
    whole request with [BentoMLException], whatever items the chunks before
    it completed and whatever chunks follow: nothing of the form is
    returned. *)
Theorem populate_rejects_bad_chunk (request : Request)
    (before : list bytes) (bad : bytes) (after : list bytes)
    (value : bytes) (p0 p : Parser) (calls : list callback) (st : locals) :
  media_type request = form_data →
  Request_stream request = before ++ bad :: after →
  Headers_getitem (scope_headers (scope request)) "Content-Type" = Ok value →
  MultipartParser (content_type_params value).2 = Ok p0 →
  write_all p0 before = Ok (p, calls) →
  handle_all (content_type_params value).1 locals_init (map invoke calls)
  = Ok st →
  write p bad = Raise MultipartParseError →
  populate_multipart_requests request = Raise invalid_multipart.
Proof.
  intros Hct Hs Hv Hp Hw Hh Hbad.
  apply populate_wraps; [exact Hct|]. rewrite Hs.
  eapply parse_write_error; eauto.
Qed.

End splitter.

(** X8. When the header names of the parent and of the part are all
    distinct, the headers of the sub-request are the parent's headers, in
    order, followed by the part's headers, in order; a part without headers
    gets the parent's headers as they are. *)
Theorem sub_request_appends_headers (request : Request) (fn : string)
    (hs : list header) (d : bytes) :
  NoDup ((scope_headers (scope request)).*1 ++ hs.*1) →
  scope_headers (scope (sub_request request (fn, hs, d)))
  = scope_headers (scope request) ++ hs.
Proof.
  intros Hnd. simpl. unfold dict_of.
  pose proof Hnd as Hnd'. apply NoDup_app in Hnd' as (Hp & _ & Hh).
  rewrite (dict_update_fresh (scope_headers (scope request)) [])
    by exact Hp.
  rewrite (dict_update_fresh hs []) by exact Hh.
  simpl. apply dict_update_fresh, Hnd.
Qed.

Lemma populate_lookup_witness :
  ∃ (reqs : gmap string Request) (form : list form_item),
    Some [("f", [], bytes_of "A"); ("f", [], bytes_of "B")] = Some form ∧
    fst <$> @parse model_lib
              (MultiPartParser_init
                 (scope_headers (scope (request_of example_ct
                                                   [collision_body])))
                 (Request_stream (request_of example_ct [collision_body])))
    = Ok form ∧
    ∀ f, reqs !! f
         = sub_request (request_of example_ct [collision_body])
           <$> last_item f form.
Proof.
  eexists.
  eapply (@populate_lookup model_lib (request_of example_ct [collision_body])
            _ {| scope := scope (request_of example_ct [collision_body]);
                 receive := [];
                 _form := Some [("f", [], bytes_of "A");
                                ("f", [], bytes_of "B")];
                 _body := None |}).
  vm_compute. reflexivity.
Defined.

Lemma populate_distinct_names_witness :
  ∃ (reqs : gmap string Request),
    size reqs = 2 ∧
    ∀ item,
      item ∈ [("a", [(bytes_of "x-part", bytes_of "1")], bytes_of "A");
              ("b", [], bytes_of "B")] →
      reqs !! item.1.1
      = Some (sub_request (request_of example_ct [two_fields_body]) item).
Proof.
  eexists.
  eapply (@populate_distinct_names model_lib
            (request_of example_ct [two_fields_body]) _
            {| scope := scope (request_of example_ct [two_fields_body]);
               receive := [];
               _form := Some [("a", [(bytes_of "x-part", bytes_of "1")],
                               bytes_of "A");
                              ("b", [], bytes_of "B")];
               _body := None |}
            [("a", [(bytes_of "x-part", bytes_of "1")], bytes_of "A");
             ("b", [], bytes_of "B")]).
  - vm_compute. reflexivity.
  - reflexivity.
  - apply (bool_decide_unpack _). vm_compute. exact I.
Defined.

Lemma populate_other_errors_unchanged_witness :
  @populate_multipart_requests model_lib
     (request_of example_ct [no_name_body])
  = Raise (KeyError (bytes_of "name")).
Proof.
  apply (@populate_other_errors_unchanged model_lib).
  - vm_compute. reflexivity.
  - vm_compute. reflexivity.
  - discriminate.
Defined.

Lemma populate_rejects_bad_chunk_witness :
  @populate_multipart_requests model_lib
     (request_of example_ct [one_part_chunk; "garbage"; "more"])
  = Raise invalid_multipart.
Proof.
  eapply (@populate_rejects_bad_chunk model_lib
            (request_of example_ct [one_part_chunk; "garbage"; "more"])
            [bytes_of one_part_chunk] (bytes_of "garbage")
            [bytes_of "more"]);
    vm_compute; reflexivity.
Defined.

Lemma sub_request_appends_headers_witness :
  scope_headers
    (scope (sub_request (request_of example_ct [])
                        ("a", [(bytes_of "x-part", bytes_of "1")],
                         bytes_of "A")))
  = scope_headers (scope (request_of example_ct []))
    ++ [(bytes_of "x-part", bytes_of "1")].
Proof.
  apply sub_request_appends_headers.
  apply (bool_decide_unpack _). vm_compute. exact I.
Defined.


(** ** The merged response *)

Lemma unhex_pair_hex (c : ascii) :
  unhex_pair (hex_digit (N_of_ascii c / 16)) (hex_digit (N_of_ascii c mod 16))
  = c.
Proof. destruct c as [[] [] [] [] [] [] [] []]; reflexivity. Qed.

Lemma unhexlify_hexlify (x : bytes) : unhexlify (hexlify x) = x.
Proof.
  induction x as [|c x IH]; [reflexivity|].
  change (hexlify (c :: x))
    with (hex_digit (N_of_ascii c / 16)
          :: hex_digit (N_of_ascii c mod 16) :: hexlify x).
  cbn [unhexlify]. rewrite unhex_pair_hex, IH. reflexivity.
Qed.

Lemma list_ascii_of_string_append (s1 s2 : string) :
  list_ascii_of_string (s1 +:+ s2)
  = list_ascii_of_string s1 ++ list_ascii_of_string s2.
Proof. induction s1 as [|c s1 IH]; simpl; [|rewrite IH]; reflexivity. Qed.

(** X9. Whatever the responses, the body of the streaming response that
    [concat_to_multipart_responses] returns yields no byte when it is
    iterated: the buffer is handed over with its position at the end. *)
Theorem merged_response_streams_nothing (entropy : bytes)
    (responses : list (string * Response)) :
  streamed_body (concat_to_multipart_responses entropy responses) = [] ∧
  pos (body_iterator (concat_to_multipart_responses entropy responses))
  = length (buf (body_iterator
                   (concat_to_multipart_responses entropy responses))).
Proof.
  split; [apply streamed_body_empty|]. rewrite concat_buffer. reflexivity.
Qed.

(** X10. The buffer written by [concat_to_multipart_responses] holds the
    bodies of the responses, concatenated in the order of the list; the
    names paired with the responses play no part. *)
Theorem merged_buffer_is_concatenation (entropy : bytes)
    (responses : list (string * Response)) :
  BytesIO_getvalue
    (body_iterator (concat_to_multipart_responses entropy responses))
  = concat (map (λ r : string * Response, body r.2) responses).
Proof. rewrite concat_buffer. reflexivity. Qed.

(** X11. With the 16 bytes [os.urandom(16)] returns, the only header of the
    merged response is [content-type], of value [multipart/form-data;
    boundary=] followed by 32 lower-case hexadecimal digits. *)
Theorem merged_content_type (entropy : bytes)
    (responses : list (string * Response)) :
  length entropy = 16 →
  ∃ boundary : bytes,
    init_headers (concat_to_multipart_responses entropy responses)
    = [("content-type",
        "multipart/form-data; boundary=" +:+ string_of_list_ascii boundary)] ∧
    length boundary = 32 ∧
    Forall (λ c, is_lower_hex c = true) boundary.
Proof. apply concat_content_type. Qed.

(** X12. The boundary determines the random bytes: two calls announce the
    same boundary exactly when [os.urandom] returned the same bytes, so
    different draws give different boundaries. *)
Theorem merged_boundary_injective (entropy1 entropy2 : bytes)
    (responses1 responses2 : list (string * Response)) :
  init_headers (concat_to_multipart_responses entropy1 responses1)
  = init_headers (concat_to_multipart_responses entropy2 responses2)
  ↔ entropy1 = entropy2.
Proof.
  split; [|intros ->; reflexivity].
  unfold concat_to_multipart_responses. simpl. intros [= H].
  apply (f_equal list_ascii_of_string) in H.
  rewrite !list_ascii_of_string_append in H. simpl in H.
  rewrite !list_ascii_of_string_of_list_ascii in H.
  rewrite <- (unhexlify_hexlify entropy1), <- (unhexlify_hexlify entropy2), H.
  reflexivity.
Qed.

Lemma merged_content_type_witness :
  ∃ boundary : bytes,
    init_headers (concat_to_multipart_responses (replicate 16 zero) abc_def)
    = [("content-type",
        "multipart/form-data; boundary=" +:+ string_of_list_ascii boundary)] ∧
    length boundary = 32 ∧
    Forall (λ c, is_lower_hex c = true) boundary.
Proof. apply merged_content_type. reflexivity. Defined.

(** ** The order of the headers of a sub-request *)

Section header_order.
Context {K V : Type} `{EqDecision K}.
Implicit Types (k : K) (l : list K) (d : list (K * V)).

Lemma filter_split (P Q R : K → Prop) `{!∀ x, Decision (P x)}
    `{!∀ x, Decision (Q x)} `{!∀ x, Decision (R x)} l :
  (∀ y, P y ↔ Q y ∧ R y) → filter P l = filter Q (filter R l).
Proof.
  intros HP. rewrite list_filter_filter. apply list_filter_iff, HP.
Qed.

Lemma filter_all (P : K → Prop) `{!∀ x, Decision (P x)} l :
  (∀ y, P y) → filter P l = l.
Proof.
  intros HP. induction l as [|x l IH]; [reflexivity|].
  rewrite filter_cons_True by apply HP. rewrite IH. reflexivity.
Qed.

Lemma elem_of_first_occurrences k l : k ∈ first_occurrences l ↔ k ∈ l.
Proof.
  induction l as [|x l IH]; simpl; [reflexivity|].
  rewrite !elem_of_cons, list_elem_of_filter, IH.
  destruct (decide (k = x)) as [->|Hne].
  - split; intros _; left; reflexivity.
  - split; (intros [?|?]; [contradiction|right]); tauto.
Qed.

Lemma first_occurrences_NoDup l : NoDup (first_occurrences l).
Proof.
  induction l as [|x l IH]; simpl; [constructor|].
  apply NoDup_cons. split.
  - rewrite list_elem_of_filter. intros [Hne _]. exact (Hne eq_refl).
  - apply NoDup_filter, IH.
Qed.

Lemma first_occurrences_id l : NoDup l → first_occurrences l = l.
Proof.
  induction l as [|x l IH]; intros Hnd; simpl; [reflexivity|].
  apply NoDup_cons in Hnd as [Hnin Hnd]. rewrite (IH Hnd). f_equal.
  clear IH Hnd. induction l as [|y l IHl]; [reflexivity|].
  rewrite filter_cons_True.
  - f_equal. apply IHl. intros Hin. apply Hnin, list_elem_of_further, Hin.
  - intros ->. apply Hnin, list_elem_of_here.
Qed.

Lemma first_occurrences_app l1 l2 :
  first_occurrences (l1 ++ l2)
  = first_occurrences l1 ++ filter (λ k, k ∉ l1) (first_occurrences l2).
Proof.
  induction l1 as [|x l1 IH]; simpl.
  - rewrite filter_all; [reflexivity|]. intros y. apply not_elem_of_nil.
  - rewrite IH, filter_app. f_equal. f_equal.
    symmetry. apply filter_split. intros y.
    rewrite elem_of_cons. split.
    + intros Hn. split; [intros ->|intros Hin]; apply Hn; auto.
    + intros [Hne Hn] [->|Hin]; [exact (Hne eq_refl) | exact (Hn Hin)].
Qed.

(** The keys after [d.update(pairs)]: the keys of [d], then the new keys
    of the pairs in the order of their first occurrence. *)
Lemma dict_update_keys (pairs : list (K * V)) :
  ∀ d, (dict_update d pairs).*1
       = d.*1 ++ filter (λ k, k ∉ d.*1) (first_occurrences pairs.*1).
Proof.
  induction pairs as [|[k v] pairs IH]; intros d.
  - simpl. rewrite app_nil_r. reflexivity.
  - change (dict_update d ((k, v) :: pairs))
      with (dict_update (dict_set k v d) pairs).
    rewrite IH, dict_set_keys. cbn [fmap list_fmap fst first_occurrences].
    destruct (decide (k ∈ d.*1)) as [Hin|Hnin].
    + rewrite app_nil_r. f_equal.
      rewrite filter_cons_False by (intros Hn; exact (Hn Hin)).
      apply filter_split. intros y. split.
      * intros Hn. split; [exact Hn|]. intros ->. exact (Hn Hin).
      * intros [Hn _]. exact Hn.
    + rewrite <- app_assoc. f_equal.
      rewrite filter_cons_True by exact Hnin. simpl. f_equal.
      apply filter_split. intros y. rewrite elem_of_app, elem_of_cons.
      split.
      * intros Hn. split; [intros Hy|intros ->]; apply Hn; auto.
      * intros [Hn Hne] [Hy|[->|Hy]];
          [exact (Hn Hy) | exact (Hne eq_refl) | inversion Hy].
Qed.

Lemma dict_of_keys (pairs : list (K * V)) :
  (dict_of pairs).*1 = first_occurrences pairs.*1.
Proof.
  unfold dict_of. rewrite dict_update_keys. simpl.
  apply filter_all. intros y. apply not_elem_of_nil.
Qed.

End header_order.

(** X13. The header names of a sub-request are the names of the parent's
    headers followed by the names of the part's headers, each name once, at
    the place of its first occurrence: a part header that overrides a
    parent header takes the parent header's place, and a new one comes
    after all the parent's. *)
Theorem sub_request_header_order (request : Request) (fn : string)
    (hs : list header) (d : bytes) :
  (scope_headers (scope (sub_request request (fn, hs, d)))).*1
  = first_occurrences ((scope_headers (scope request)).*1 ++ hs.*1).
Proof.
  simpl. rewrite dict_update_keys, !dict_of_keys, first_occurrences_app.
  f_equal. rewrite (first_occurrences_id (first_occurrences hs.*1))
    by apply first_occurrences_NoDup.
  apply list_filter_iff. intros y. rewrite elem_of_first_occurrences.
  reflexivity.
Qed.


(** * The configuration module *)

Import Configuration.

(** X14. Round trip of the mode flags: [get_debug_mode()] after
    [set_debug_mode(enabled)] returns [enabled], and [get_quiet_mode()]
    after [set_quiet_mode(enabled)] returns [enabled], whatever the
    environment held before. *)
Theorem mode_round_trip (enabled : bool) (p : process) :
  get_debug_mode (set_debug_mode enabled p) = enabled ∧
  get_quiet_mode (set_quiet_mode enabled p) = enabled.
Proof.
  unfold get_debug_mode, get_quiet_mode, set_debug_mode, set_quiet_mode.
  simpl. split.
  - rewrite lookup_insert_ne by discriminate. rewrite lookup_insert_eq.
    destruct enabled; reflexivity.
  - rewrite lookup_insert_ne by discriminate. rewrite lookup_insert_eq.
    destruct enabled; reflexivity.
Qed.

(** X15. The two flags do not disturb each other, but both setters write
    [GRPC_VERBOSITY] and the last one wins: setting the quiet flag after
    the debug flag leaves the debug flag as set and [GRPC_VERBOSITY] at
    [NONE]; in the other order it is left at [DEBUG]. *)
Theorem modes_share_grpc_verbosity (d q : bool) (p : process) :
  get_debug_mode (set_quiet_mode q (set_debug_mode d p)) = d ∧
  get_quiet_mode (set_debug_mode d (set_quiet_mode q p)) = q ∧
  environ (set_quiet_mode q (set_debug_mode d p)) !! GRPC_DEBUG_ENV_VAR
  = Some "NONE" ∧
  environ (set_debug_mode d (set_quiet_mode q p)) !! GRPC_DEBUG_ENV_VAR
  = Some "DEBUG".
Proof.
  unfold get_debug_mode, get_quiet_mode, set_debug_mode, set_quiet_mode.
  simpl. repeat split.
  - rewrite !lookup_insert_ne by discriminate. rewrite lookup_insert_eq.
    destruct d; reflexivity.
  - rewrite !lookup_insert_ne by discriminate. rewrite lookup_insert_eq.
    destruct q; reflexivity.
  - apply lookup_insert_eq.
  - apply lookup_insert_eq.
Qed.

Lemma iter_succ_r {A : Type} (f : A → A) (n : nat) (x : A) :
  Nat.iter (S n) f x = Nat.iter n f (f x).
Proof.
  induction n as [|n IH]; [reflexivity|].
  simpl in *. rewrite IH. reflexivity.
Qed.

(** X16. When [expand_env_var] returns, its result is the first value, in
    the sequence obtained by interpolating again and again, that
    interpolation leaves unchanged. *)
Theorem expand_env_var_first_fixed_point (interpolate : string → string) :
  ∀ (fuel : nat) (env_var result : string),
    expand_env_var fuel interpolate env_var = Some result →
    ∃ n, n < fuel ∧
         result = Nat.iter n interpolate env_var ∧
         interpolate result = result ∧
         ∀ m, m < n →
              interpolate (Nat.iter m interpolate env_var)
              ≠ Nat.iter m interpolate env_var.
Proof.
  induction fuel as [|fuel IH]; intros x y H; [discriminate|].
  simpl in H. destruct (decide (interpolate x = x)) as [Hfix|Hne].
  - assert (y = x) as -> by congruence.
    exists 0. simpl. split; [lia|]. split; [reflexivity|].
    split; [exact Hfix|]. intros m Hm. lia.
  - destruct (IH _ _ H) as (n & Hn & Hy & Hfix & Hmin).
    exists (S n). split; [lia|]. split; [rewrite iter_succ_r; exact Hy|].
    split; [exact Hfix|].
    intros [|m] Hm; [exact Hne|]. rewrite iter_succ_r.
    apply Hmin. lia.
Qed.

Lemma expand_env_var_reaches (interpolate : string → string) (n : nat) :
  ∀ env_var,
    interpolate (Nat.iter n interpolate env_var)
    = Nat.iter n interpolate env_var →
    ∃ result, expand_env_var (S n) interpolate env_var = Some result.
Proof.
  induction n as [|n IH]; intros x Hfix.
  - simpl in *. rewrite decide_True by exact Hfix. eauto.
  - rewrite iter_succ_r in Hfix.
    change (expand_env_var (S (S n)) interpolate x)
      with (if decide (interpolate x = x) then Some (interpolate x)
            else expand_env_var (S n) interpolate (interpolate x)).
    destruct (decide (interpolate x = x)); [eauto|].
    apply IH, Hfix.
Qed.

(** X17. [expand_env_var] returns exactly when repeated interpolation
    reaches a value it leaves unchanged; on definitions that refer to each
    other in a cycle the loop never ends. *)
Theorem expand_env_var_returns_iff (interpolate : string → string)
    (env_var : string) :
  (∃ fuel result, expand_env_var fuel interpolate env_var = Some result)
  ↔ ∃ n, interpolate (Nat.iter n interpolate env_var)
         = Nat.iter n interpolate env_var.
Proof.
  split.
  - intros (fuel & y & H).
    destruct (expand_env_var_first_fixed_point _ _ _ _ H)
      as (n & _ & -> & Hfix & _).
    exists n. exact Hfix.
  - intros (n & Hfix).
    destruct (expand_env_var_reaches _ _ _ Hfix) as (y & Hy).
    exists (S n), y. exact Hy.
Qed.

Lemma before_first_append (sep : ascii) (v rest : string) :
  before_first sep v = v →
  before_first sep (v +:+ String sep rest) = v.
Proof.
  induction v as [|c v IH]; simpl.
  - intros _. rewrite decide_True by reflexivity. reflexivity.
  - destruct (decide (c = sep)); [discriminate|].
    intros [= H]. rewrite (IH H). reflexivity.
Qed.

(** X18. [clean_bentoml_version] ignores the local part of a version: what
    follows the first [+] does not change its result. *)
Theorem clean_bentoml_version_drops_local (Version : string → option string)
    (v local_part : string) :
  before_first plus v = v →
  clean_bentoml_version Version (v +:+ String plus local_part)
  = clean_bentoml_version Version v.
Proof.
  intros Hv. unfold clean_bentoml_version.
  rewrite (before_first_append _ _ _ Hv), Hv. reflexivity.
Qed.

Lemma length_before_first_append (sep : ascii) (v rest : string) :
  String.length (before_first sep (v +:+ String sep rest))
  <= String.length v.
Proof.
  induction v as [|c v IH]; simpl.
  - rewrite decide_True by reflexivity. reflexivity.
  - destruct (decide (c = sep)); simpl; lia.
Qed.

Lemma length_append_cons (sep : ascii) (v rest : string) :
  String.length v < String.length (v +:+ String sep rest).
Proof. induction v as [|c v IH]; simpl; lia. Qed.

(** X19. [is_pypi_installed_bentoml] is false when [bentoml._version]
    cannot be imported, whatever the version (the fallback tuple ends in
    [dirty]), and false for every version with a local part after [+]. *)
Theorem is_pypi_installed_bentoml_false (version local_part : string)
    (imported : option (list string * string)) :
  is_pypi_installed_bentoml version None = false ∧
  is_pypi_installed_bentoml (version +:+ String plus local_part) imported
  = false.
Proof.
  split.
  - unfold is_pypi_installed_bentoml.
    destruct (negb (String.prefix "0.1." version)); reflexivity.
  - unfold is_pypi_installed_bentoml.
    rewrite bool_decide_eq_false_2; [apply andb_false_r|].
    intros E. apply (f_equal String.length) in E.
    pose proof (length_before_first_append plus version local_part).
    pose proof (length_append_cons plus version local_part).
    lia.
Qed.

Lemma expand_env_var_first_fixed_point_witness :
  ∃ n, n < 5 ∧
       "/srv" = Nat.iter n example_interpolate "$A" ∧
       example_interpolate "/srv" = "/srv" ∧
       ∀ m, m < n →
            example_interpolate (Nat.iter m example_interpolate "$A")
            ≠ Nat.iter m example_interpolate "$A".
Proof.
  apply (expand_env_var_first_fixed_point example_interpolate 5 "$A" "/srv").
  reflexivity.
Defined.

Lemma clean_bentoml_version_drops_local_witness :
  clean_bentoml_version Some ("1.0.20.post3" +:+ String plus "g1a2b3c")
  = clean_bentoml_version Some "1.0.20.post3".
Proof. apply clean_bentoml_version_drops_local. reflexivity. Defined.

(** ** Loading the configuration *)

Section load_config_facts.
Context {Defaults Json Config : Type}.
Variable interpolate : gmap string string → string → string.
Variable isfile : string → bool.
Variable json_loads : string → config_error + Json.
Variable BentoMLConfiguration :
  option string → option string → option Defaults → option Json → nat →
  config_error + Config.

(** X20. When [load_config] stores a configuration, the file it handed to
    [BentoMLConfiguration] is the non-empty argument if there is one, and
    if it is a non-empty name it ends with [.yml] or [.yaml] and is an
    existing file; the override values are those of
    [BENTOML_CONFIG_OPTIONS]. *)
Theorem load_config_accepted_file (fuel : nat) (arg : option string)
    (defaults : option Defaults) (v : nat) (p p' : process) (c : Config) :
  load_config interpolate isfile json_loads BentoMLConfiguration
    fuel arg defaults v p = Some (p', inr c) →
  ∃ file json,
    BentoMLConfiguration file (environ p !! CONFIG_OVERRIDE_ENV_VAR)
      defaults json v = inr c ∧
    (nonempty arg = true → file = arg) ∧
    ∀ f, file = Some f → f ≠ EmptyString →
         (endswith f ".yml" = true ∨ endswith f ".yaml" = true) ∧
         isfile f = true.
Proof.
  unfold Configuration.load_config. intros H.
  destruct (if nonempty arg then Some arg
            else get_bentoml_config_file_from_env interpolate fuel p)
    as [file|] eqn:Hfile; [|discriminate].
  simpl in H. injection H as H.
  assert (∀ q r,
    (let '(p1, values) := get_bentoml_override_config_from_env p in
     match get_bentoml_override_config_json_from_env json_loads p1 with
     | inl e => (p1, inl e)
     | inr json =>
         (p1, BentoMLConfiguration file values defaults json v)
     end) = (q, inr r) →
    ∃ json, BentoMLConfiguration file (environ p !! CONFIG_OVERRIDE_ENV_VAR)
              defaults json v = inr r) as Hconf.
  { intros q r. unfold get_bentoml_override_config_from_env.
    destruct (environ p !! CONFIG_OVERRIDE_ENV_VAR) as [val|];
      match goal with
      | |- context [get_bentoml_override_config_json_from_env ?l ?q] =>
          destruct (get_bentoml_override_config_json_from_env l q)
            as [e|json]
      end; intros [= _ E]; eauto. }
  assert (nonempty arg = true → file = arg) as Harg.
  { intros Ha. rewrite Ha in Hfile. congruence. }
  destruct file as [[|ch f]|].
  - destruct (Hconf _ _ H) as (json & Hj). exists (Some EmptyString), json.
    split; [exact Hj|]. split; [exact Harg|].
    intros f [= <-] Hne. contradiction.
  - destruct (endswith (String ch f) ".yml" || endswith (String ch f) ".yaml")
      eqn:Hext; simpl in H; [|discriminate].
    destruct (isfile (String ch f)) eqn:Hfilex; simpl in H; [|discriminate].
    destruct (Hconf _ _ H) as (json & Hj). exists (Some (String ch f)), json.
    split; [exact Hj|]. split; [exact Harg|].
    intros f' [= <-] _. split; [|exact Hfilex].
    apply orb_true_iff in Hext. exact Hext.
  - destruct (Hconf _ _ H) as (json & Hj). exists None, json.
    split; [exact Hj|]. split; [exact Harg|]. intros f; discriminate.
Qed.

(** X21. With a non-empty file name as argument [load_config] always
    returns or raises: the name is not expanded, so the outcome is the
    same for every bound on the expansion loop, the bound of no iteration
    included. *)
Theorem load_config_explicit_file (fuel : nat) (f : string)
    (defaults : option Defaults) (v : nat) (p : process) :
  f ≠ EmptyString →
  is_Some (load_config interpolate isfile json_loads BentoMLConfiguration
             fuel (Some f) defaults v p) ∧
  load_config interpolate isfile json_loads BentoMLConfiguration
    fuel (Some f) defaults v p
  = load_config interpolate isfile json_loads BentoMLConfiguration
      0 (Some f) defaults v p.
Proof.
  intros Hne. destruct f as [|ch f]; [contradiction|].
  split; [|reflexivity].
  unfold Configuration.load_config. simpl. eauto.
Qed.


End load_config_facts.

Lemma load_config_accepted_file_witness :
  ∃ file json,
    (inr (file, json) : config_error + (option string * option string))
    = inr (Some "/srv/bentoml.yaml", None) ∧
    (nonempty None = true → file = None) ∧
    ∀ f, file = Some f → f ≠ EmptyString →
         (endswith f ".yml" = true ∨ endswith f ".yaml" = true) ∧
         bool_decide (f = "/srv/bentoml.yaml") = true.
Proof.
  apply (load_config_accepted_file (Defaults := unit) config_interpolate
           (λ f, bool_decide (f = "/srv/bentoml.yaml"))
           (λ s, inr s)
           (λ file values defaults json v, inr (file, json))
           5 None None 1 config_process
           {| environ := environ config_process;
              logged := [];
              warned := [deprecation] |}
           (Some "/srv/bentoml.yaml", None)).
  vm_compute. reflexivity.
Defined.

Lemma load_config_explicit_file_witness :
  is_Some (load_config (Defaults := unit) config_interpolate (λ _, true)
             (λ s, inr s) (λ file values defaults json v, inr file)
             3 (Some "bentoml.yml") None 1 config_process) ∧
  load_config (Defaults := unit) config_interpolate (λ _, true)
    (λ s, inr s) (λ file values defaults json v, inr file)
    3 (Some "bentoml.yml") None 1 config_process
  = load_config (Defaults := unit) config_interpolate (λ _, true)
      (λ s, inr s) (λ file values defaults json v, inr file)
      0 (Some "bentoml.yml") None 1 config_process.
Proof.
  apply (load_config_explicit_file (Defaults := unit) config_interpolate
           (λ _, true) (λ s, inr s) (λ file values defaults json v, inr file)
           3 "bentoml.yml").
  discriminate.
Defined.



(** * Model artifacts *)

Section artifacts.
Import Artifacts.

Lemma string_prefix_append (s t : string) : String.prefix s (s +:+ t) = true.
Proof.
  induction s as [|c s IH]; simpl; [destruct t; reflexivity|].
  destruct (ascii_dec c c); [exact IH | contradiction].
Qed.

Lemma join_model_file (path ext : string) :
  os_path_join path (_MODEL_NAMESPACE +:+ ext)
  = path
    +:+ (if bool_decide (path = EmptyString) || ends_with slash path
         then EmptyString else String slash EmptyString)
    +:+ _MODEL_NAMESPACE +:+ ext.
Proof.
  unfold os_path_join.
  assert (String.prefix (String slash EmptyString) (_MODEL_NAMESPACE +:+ ext)
          = false) as -> by reflexivity.
  destruct (bool_decide (path = EmptyString) || ends_with slash path).
  - reflexivity.
  - reflexivity.
Qed.

(** X23. The path [get_path] returns keeps the directory: the file is
    [bentoml_model] followed by the extension, appended to [path] with one
    slash unless [path] is empty or already ends with one.  [os.path.join]
    never replaces the directory, whatever the extension; and an [ext] of
    [None] names the file [bentoml_modelNone]. *)
Theorem get_path_keeps_directory (path : string) (ext : option string) :
  _get_path path ext
  = path
    +:+ (if bool_decide (path = EmptyString) || ends_with slash path
         then EmptyString else String slash EmptyString)
    +:+ _MODEL_NAMESPACE +:+ format_ext ext
  ∧ String.prefix path (_get_path path ext) = true
  ∧ _get_path path None = _get_path path (Some "None").
Proof.
  assert (_get_path path ext
          = path
            +:+ (if bool_decide (path = EmptyString) || ends_with slash path
                 then EmptyString else String slash EmptyString)
            +:+ _MODEL_NAMESPACE +:+ format_ext ext) as E
    by apply join_model_file.
  split; [exact E|]. split; [|reflexivity].
  rewrite E. apply string_prefix_append.
Qed.

Lemma file_extension_last_value (name ext : string) :
  (name, ext) ∈ _FILE_EXTENSION →
  last_value name (prod_map id Str <$> _FILE_EXTENSION) = Some (Str ext).
Proof.
  unfold _FILE_EXTENSION. intros H.
  repeat (apply elem_of_cons in H as [[= -> ->]|H]; [reflexivity|]).
  inversion H.
Qed.

Lemma new_file_extension (namespace : list (string * value))
    (name ext : string) :
  (name, ext) ∈ _FILE_EXTENSION →
  dict_get name (__new__ namespace) = Some (Str ext).
Proof.
  intros H. unfold __new__.
  rewrite dict_get_update, (file_extension_last_value _ _ H). reflexivity.
Qed.

Lemma new_get_path (namespace : list (string * value)) :
  dict_get "get_path" (__new__ namespace) = Some GetPath.
Proof.
  unfold __new__. rewrite dict_get_update.
  change (last_value "get_path" (prod_map id Str <$> _FILE_EXTENSION))
    with (@None value).
  apply dict_get_set_eq.
Qed.

(** X24. Whatever the body of a class defines, the class that
    [_ArtifactMeta.__new__] builds has the nine extension constants, the
    [get_path] of the metaclass and [_MODEL_NAMESPACE] at the values of
    the metaclass; every other name keeps the value of the body. *)
Theorem new_fixes_reserved_attributes (namespace : list (string * value)) :
  (∀ name ext, (name, ext) ∈ _FILE_EXTENSION →
               dict_get name (__new__ namespace) = Some (Str ext)) ∧
  dict_get "get_path" (__new__ namespace) = Some GetPath ∧
  dict_get "_MODEL_NAMESPACE" (__new__ namespace)
  = Some (Str _MODEL_NAMESPACE) ∧
  (∀ name, name ∉ reserved →
           dict_get name (__new__ namespace) = dict_get name namespace).
Proof.
  split; [intros name ext; apply new_file_extension|].
  split; [apply new_get_path|]. split.
  - unfold __new__. rewrite dict_get_update.
    change (last_value "_MODEL_NAMESPACE"
              (prod_map id Str <$> _FILE_EXTENSION))
      with (@None value).
    rewrite dict_get_set_ne by discriminate. apply dict_get_set_eq.
  - intros name Hn. unfold __new__. rewrite dict_get_update.
    assert (last_value name (prod_map id Str <$> _FILE_EXTENSION) = None)
      as ->.
    { apply last_value_None. intros Hin. apply Hn.
      unfold reserved. do 2 apply list_elem_of_further.
      rewrite <- list_fmap_compose in Hin.
      exact Hin. }
    rewrite !dict_get_set_ne; [reflexivity| |].
    + intros <-. apply Hn, list_elem_of_here.
    + intros <-. apply Hn, list_elem_of_further, list_elem_of_here.
Qed.

Section instance.
Context {M V R : Type}.
Variable Path : string → string.
Variable dump : list (string * V) → string.
Variable repr : value → string.

(** X25. [load] reached through an instance of the base class always
    raises, and the [AssertionError] of the wrapper exactly when no
    positional argument is the string [path] itself: the assertion looks
    for the word among the values, so a call with a directory name as its
    one argument fails it. *)
Theorem base_load_always_raises (args_kw : arguments) (p : string) :
  (∃ e, wrapped_load (R := R) load args_kw = inl e ∧
        (e = AssertionError assert_msg ↔ Str "path" ∉ args_kw.1)) ∧
  wrapped_load (R := R) load ([Str p], [])
  = inl (if decide (p = "path") then NotImplementedError
         else AssertionError assert_msg).
Proof.
  split.
  - unfold wrapped_load.
    destruct (bool_decide_reflect (Str "path" ∈ args_kw.1)) as [Hin|Hnin].
    + assert (∃ e, load (R := R) args_kw = inl e
                   ∧ e ≠ AssertionError assert_msg) as (e & -> & He).
      { destruct args_kw as [[|a [|b args]] [|[name v] [|kv kw]]]; simpl;
          try (eexists; split; [reflexivity | discriminate]).
        destruct (decide (name = "path"));
          eexists; (split; [reflexivity | discriminate]). }
      exists e. split; [reflexivity|]. split; [contradiction|].
      intros Hn. contradiction.
    + eexists. split; [reflexivity|]. split; auto.
  - unfold wrapped_load. simpl. destruct (decide (p = "path")) as [->|Hne].
    + rewrite bool_decide_eq_true_2 by apply list_elem_of_here. reflexivity.
    + rewrite bool_decide_eq_false_2; [reflexivity|].
      intros Hin. apply list_elem_of_singleton in Hin. congruence.
Qed.


End instance.
End artifacts.

